(** * YoutubeDownloder: the URL validator, the format catalog and the
      download handler of [app.py], embedded in Rocq.

    The file follows the source top-down: the regular expression used by
    [is_valid_youtube_url] and [extract_video_id], the loop of
    [get_video_info] that builds the list of formats, and the two request
    handlers with the state they touch (form, engine, file system, flashed
    messages). *)

From Stdlib Require Import ZArith Lia Ascii String.
From stdpp Require Import base tactics option list sorting strings pretty gmap sets stringmap.

Local Open Scope Z_scope.

(** ** Regular expressions, as Python's [re] matches them

    [re.match] anchors the pattern at position 0 of the subject and explores
    alternatives in priority order (leftmost alternative first, greedy
    quantifiers first) with backtracking; the first success is the match.
    Capturing groups record the text of their last participation. *)
Module Re.

(** A set of characters. *)
Inductive charset :=
  | CAny                       (* [.]    every character but the newline *)
  | CChar (c : ascii)          (* a literal character *)
  | CNoneOf (l : list ascii).  (* [[^...]] *)

Definition newline : ascii := Ascii.ascii_of_nat 10.

Definition cs_match (cs : charset) (c : ascii) : bool :=
  match cs with
  | CAny => bool_decide (c ≠ newline)
  | CChar d => bool_decide (c = d)
  | CNoneOf l => bool_decide (c ∉ l)
  end.

Inductive regex :=
  | Eps
  | Chr (cs : charset)
  | Seq (r1 r2 : regex)
  | Alt (r1 r2 : regex)            (* [r1|r2], r1 tried first *)
  | Plus (cs : charset)            (* [cs+], greedy *)
  | Group (i : nat) (r : regex).   (* the i-th capturing group *)

(** Derived forms of the pattern syntax. *)
Fixpoint lit (s : string) : regex :=
  match s with
  | EmptyString => Eps
  | String c s' => Seq (Chr (CChar c)) (lit s')
  end.

(** [r?] is greedy: one occurrence is tried before none. *)
Definition opt (r : regex) : regex := Alt r Eps.

(** [cs{n}] *)
Fixpoint rep (n : nat) (cs : charset) : regex :=
  match n with
  | O => Eps
  | S n' => Seq (Chr cs) (rep n' cs)
  end.

(** The groups of a match: [groups !! i = None] is a group that did not
    participate ([match.group(i)] is [None]). *)
Definition groups := gmap nat string.

Record Match := mkMatch {
  matched : string;   (* [match.group(0)] *)
  captured : groups
}.

(** The continuation receives the text matched so far by the current
    sub-pattern, the rest of the subject and the groups. *)
Definition cont := string → string → groups → option Match.

Fixpoint match_plus (cs : charset) (s : string) (k : string → string → option Match)
    : option Match :=
  match s with
  | EmptyString => None
  | String c s' =>
      if cs_match cs c then
        match match_plus cs s' (λ p rest, k (String c p) rest) with
        | Some m => Some m
        | None => k (String c EmptyString) s'
        end
      else None
  end.

Fixpoint run (r : regex) (s : string) (g : groups) (k : cont) : option Match :=
  match r with
  | Eps => k "" s g
  | Chr cs =>
      match s with
      | String c s' => if cs_match cs c then k (String c EmptyString) s' g else None
      | EmptyString => None
      end
  | Seq r1 r2 =>
      run r1 s g (λ p1 s1 g1, run r2 s1 g1 (λ p2 s2 g2, k (p1 +:+ p2) s2 g2))
  | Alt r1 r2 =>
      match run r1 s g k with
      | Some m => Some m
      | None => run r2 s g k
      end
  | Plus cs => match_plus cs s (λ p rest, k p rest g)
  | Group i r => run r s g (λ p rest g', k p rest (<[i:=p]> g'))
  end.

(** [re.compile(r).match(s)] *)
Definition re_match (r : regex) (s : string) : option Match :=
  run r s ∅ (λ p _ g, Some (mkMatch p g)).

(** [m.group(i)] for [i ≥ 1] *)
Definition group (m : Match) (i : nat) : option string := captured m !! i.

(** The language of a pattern, and the groups a successful traversal sets. *)
Inductive matches : regex → string → groups → groups → Prop :=
  | M_eps g : matches Eps "" g g
  | M_chr cs c g : cs_match cs c = true → matches (Chr cs) (String c "") g g
  | M_seq r1 r2 p1 p2 g g1 g2 :
      matches r1 p1 g g1 → matches r2 p2 g1 g2 →
      matches (Seq r1 r2) (p1 +:+ p2) g g2
  | M_alt_l r1 r2 p g g' : matches r1 p g g' → matches (Alt r1 r2) p g g'
  | M_alt_r r1 r2 p g g' : matches r2 p g g' → matches (Alt r1 r2) p g g'
  | M_plus_one cs c g : cs_match cs c = true → matches (Plus cs) (String c "") g g
  | M_plus_more cs c p g :
      cs_match cs c = true → matches (Plus cs) p g g →
      matches (Plus cs) (String c p) g g
  | M_group i r p g g' :
      matches r p g g' → matches (Group i r) p g (<[i:=p]> g').

End Re.

(** ** The URL validator (app.py, lines 19-36) *)

Import Re.

(** [(https?://)?(www\.)?(youtube|youtu|youtube-nocookie)\.(com|be)/]
    [(watch\?v=|embed/|v/|.+\?v=)?([^&=%\?]{11})]

    Both functions compile this same pattern text. *)
Definition url_scheme : regex := Seq (lit "http") (Seq (opt (lit "s")) (lit "://")).

Definition url_host : regex :=
  Alt (lit "youtube") (Alt (lit "youtu") (lit "youtube-nocookie")).

Definition url_path : regex :=
  Alt (lit "watch?v=") (Alt (lit "embed/") (Alt (lit "v/")
      (Seq (Plus CAny) (lit "?v=")))).

Definition url_head : regex :=
  Seq (opt (Group 1 url_scheme))
 (Seq (opt (Group 2 (lit "www.")))
 (Seq (Group 3 url_host)
 (Seq (lit ".")
 (Seq (Group 4 (Alt (lit "com") (lit "be")))
 (Seq (lit "/")
      (opt (Group 5 url_path))))))).

Definition id_chars : charset := CNoneOf ["&"; "="; "%"; "?"]%char.

Definition youtube_regex : regex := Seq url_head (Group 6 (rep 11 id_chars)).

Definition is_valid_youtube_url (url : string) : bool :=
  bool_decide (re_match youtube_regex url ≠ None).

Definition extract_video_id (url : string) : option string :=
  match re_match youtube_regex url with
  | Some m => group m 6
  | None => None
  end.

(** The shape of an accepted URL, component by component. *)
Definition chars (s : string) : list ascii := String.list_ascii_of_string s.

Definition token_shape (tok : string) : Prop :=
  String.length tok = 11%nat ∧ Forall (λ c, c ∉ ["&"; "="; "%"; "?"]%char) (chars tok).

Definition path_shape (path : string) : Prop :=
  path ∈ ["watch?v="; "embed/"; "v/"; ""] ∨
  ∃ q, path = q +:+ "?v=" ∧ q ≠ "" ∧ Forall (λ c, c ≠ newline) (chars q).

Definition head_shape (head : string) : Prop :=
  ∃ scheme www host tld path,
    head = scheme +:+ www +:+ host +:+ "." +:+ tld +:+ "/" +:+ path ∧
    scheme ∈ ["https://"; "http://"; ""] ∧
    www ∈ ["www."; ""] ∧
    host ∈ ["youtube"; "youtu"; "youtube-nocookie"] ∧
    tld ∈ ["com"; "be"] ∧
    path_shape path.

Definition url_shape (url : string) : Prop :=
  ∃ head tok rest, url = head +:+ tok +:+ rest ∧ head_shape head ∧ token_shape tok.

(** The identifier as the data model describes it: 11 characters, each a
    letter, a digit, [-] or [_]. *)
Definition is_id_char (c : ascii) : bool :=
  let n := nat_of_ascii c in
  bool_decide ((48 ≤ n ≤ 57)%nat ∨ (65 ≤ n ≤ 90)%nat ∨ (97 ≤ n ≤ 122)%nat ∨
               c = "-"%char ∨ c = "_"%char).

Definition video_id_shape (tok : string) : Prop :=
  String.length tok = 11%nat ∧ Forall (λ c, is_id_char c = true) (chars tok).

(** The words of a pattern without [.], [[^...]] and [+]. *)
Fixpoint words (r : regex) : option (list string) :=
  match r with
  | Eps => Some [""]
  | Chr (CChar c) => Some [String c ""]
  | Chr _ => None
  | Seq r1 r2 =>
      l1 ← words r1; l2 ← words r2; Some (a ← l1; b ← l2; [a +:+ b])
  | Alt r1 r2 => l1 ← words r1; l2 ← words r2; Some (l1 ++ l2)
  | Plus _ => None
  | Group _ r => words r
  end.

(** ** Python string helpers used by the handlers

    A character is a code point below 256; [str.isspace] holds there for
    U+0009-U+000D, U+001C-U+0020, U+0085 and U+00A0. *)
Definition isspace (c : ascii) : bool :=
  let n := nat_of_ascii c in
  bool_decide ((9 ≤ n ≤ 13)%nat ∨ (28 ≤ n ≤ 32)%nat ∨ n = 133%nat ∨ n = 160%nat).

Fixpoint lstrip (s : string) : string :=
  match s with
  | String c s' => if isspace c then lstrip s' else s
  | EmptyString => EmptyString
  end.

Fixpoint rstrip (s : string) : string :=
  match s with
  | String c s' =>
      match rstrip s' with
      | EmptyString => if isspace c then EmptyString else String c EmptyString
      | t => String c t
      end
  | EmptyString => EmptyString
  end.

(** [s.strip()] *)
Definition strip (s : string) : string := rstrip (lstrip s).

(** [s.replace(old, new)] for a one-character [old]. *)
Fixpoint replace (old : ascii) (new : string) (s : string) : string :=
  match s with
  | String c s' =>
      if bool_decide (c = old) then new +:+ replace old new s'
      else String c (replace old new s')
  | EmptyString => EmptyString
  end.

(** [str(n)] of an integer, which is also what [f"{n}"] prints. *)
Definition str (n : Z) : string := pretty n.

(** The digits of [int(s)]: decimal digits, single underscores allowed
    between two digits. [None] is [ValueError]. *)
Fixpoint int_digits (acc : Z) (after_digit : bool) (s : string) : option Z :=
  match s with
  | EmptyString => if after_digit then Some acc else None
  | String c s' =>
      match Ascii.is_nat c with
      | Some d => int_digits (10 * acc + Z.of_nat d) true s'
      | None =>
          if bool_decide (c = "_"%char) && after_digit
          then int_digits acc false s' else None
      end
  end.

(** The characters of a printed integer. *)
Definition numeral_char (c : ascii) : Prop :=
  is_Some (Ascii.is_nat c) ∨ c = "-"%char.

(** [int(s)]: surrounding whitespace, an optional sign, then the digits. *)
Definition int (s : string) : option Z :=
  match strip s with
  | String "-" s' => Z.opp <$> int_digits 0 false s'
  | String "+" s' => int_digits 0 false s'
  | s' => int_digits 0 false s'
  end.

(** [os.path.join(a, b)] on POSIX. *)
Fixpoint ends_with_slash (a : string) : bool :=
  match a with
  | EmptyString => true    (* an empty first component adds no separator *)
  | String c EmptyString => bool_decide (c = "/"%char)
  | String _ a' => ends_with_slash a'
  end.

Definition path_join (a b : string) : string :=
  match b with
  | String "/" _ => b
  | _ => if ends_with_slash a then a +:+ b else a +:+ "/" +:+ b
  end.

(** ** Stable sort on a key, largest key first

    [list.sort(key=..., reverse=True)] computes the key of every element
    first (an exception of the key function aborts the sort), then sorts on
    the keys; elements with equal keys keep their relative order, also
    under [reverse=True]. *)
Section sort.
Context {A : Type}.

Fixpoint insert_desc (k : Z) (x : A) (l : list (Z * A)) : list (Z * A) :=
  match l with
  | [] => [(k, x)]
  | (k', y) :: l' =>
      if (k' <=? k)%Z then (k, x) :: l else (k', y) :: insert_desc k x l'
  end.

Fixpoint sort_desc (l : list (Z * A)) : list (Z * A) :=
  match l with
  | [] => []
  | (k, x) :: l' => insert_desc k x (sort_desc l')
  end.

Fixpoint keyed (key : A → option Z) (l : list A) : option (list (Z * A)) :=
  match l with
  | [] => Some []
  | x :: l' =>
      match key x with
      | Some k => (λ kl, (k, x) :: kl) <$> keyed key l'
      | None => None
      end
  end.

Definition sort_reverse (key : A → option Z) (l : list A) : option (list A) :=
  (λ kl, (sort_desc kl).*2) <$> keyed key l.
End sort.

(** ** The data of a metadata query

    A key of a dictionary that the code reads with a default:
    [d.get(key, default)] is the default only when the key is absent; a
    key that is present with the value [None] (a JSON null) gives [None]. *)
Inductive field (A : Type) :=
  | Absent
  | Null
  | Value (a : A).
Arguments Absent {A}.
Arguments Null {A}.
Arguments Value {A} a.

(** [d.get(key, default)]; the result [None] is Python's [None]. *)
Definition dict_get {A} (f : field A) (default : A) : option A :=
  match f with
  | Absent => Some default
  | Null => None
  | Value a => Some a
  end.

(** A format as yt-dlp reports it ([fmt] in the source). [format_id] is
    read with a subscript and is always there. [vcodec], [height],
    [filesize] and [fps] are read with [fmt.get(key)], for which an absent
    key and a null are the same [None]; [ext] is read with a default.
    Heights, sizes and frame rates are the integers of the JSON the engine
    produces. *)
Record RawFormat := mkRawFormat {
  fmt_format_id : string;
  fmt_vcodec : option string;
  fmt_height : option Z;
  fmt_ext : field string;
  fmt_filesize : option Z;
  fmt_fps : option Z
}.

(** An entry of the list sent to the client; [None] is a null. *)
Record Format := mkFormat {
  format_id : string;
  quality : string;
  ext : option string;
  filesize : option Z;
  fps : option Z
}.

(** [info], the dictionary returned by [extract_info]. The five scalar
    keys are read with a default; [info_formats] is [None] when the key
    ['formats'] is absent and the list the engine reports otherwise. *)
Record Info := mkInfo {
  info_title : field string;
  info_duration : field Z;
  info_thumbnail : field string;
  info_uploader : field string;
  info_view_count : field Z;
  info_formats : option (list RawFormat)
}.

(** [video_info], the dictionary handed to [jsonify]; [None] is a null. *)
Record VideoInfo := mkVideoInfo {
  title : option string;
  duration : option Z;
  thumbnail : option string;
  uploader : option string;
  view_count : option Z;
  formats : list Format
}.

(** ** The list of formats (app.py, lines 67-104) *)

(** [fmt.get('vcodec') != 'none' and fmt.get('height')]: the height is
    tested for truth, so a height of 0 counts like a missing one. *)
Definition has_video (fmt : RawFormat) : bool :=
  bool_decide (fmt_vcodec fmt ≠ Some "none") &&
  match fmt_height fmt with
  | Some h => bool_decide (h ≠ 0)
  | None => false
  end.

(** [f"{fmt['height']}p"] *)
Definition quality_label (h : Z) : string := str h +:+ "p".

Definition format_entry (fmt : RawFormat) (q : string) : Format :=
  {| format_id := fmt_format_id fmt;
     quality := q;
     ext := dict_get (fmt_ext fmt) "mp4";
     filesize := fmt_filesize fmt;
     fps := fmt_fps fmt |}.

(** One iteration of [for fmt in info['formats']], on the two locals
    [formats] and [seen_qualities]. *)
Definition loop_body (acc : list Format * gset string) (fmt : RawFormat)
    : list Format * gset string :=
  let '(formats, seen_qualities) := acc in
  if has_video fmt then
    let quality := quality_label (default 0 (fmt_height fmt)) in
    if decide (quality ∈ seen_qualities) then acc
    else (formats ++ [format_entry fmt quality], seen_qualities ∪ {[quality]})
  else acc.

Definition collect_formats (info : Info) : list Format * gset string :=
  match info_formats info with
  | Some raw => foldl loop_body ([], ∅) raw
  | None => ([], ∅)
  end.

(** [lambda x: int(x['quality'].replace('p', ''))] *)
Definition sort_key (x : Format) : option Z := int (replace "p" "" (quality x)).

Definition audio_only : Format :=
  {| format_id := "bestaudio";
     quality := "Audio Only (MP3)";
     ext := Some "mp3";
     filesize := None;
     fps := None |}.

(** Notions the properties of the loop are stated with: the label and the
    entry the loop computes for a descriptor, the descriptor that is the
    first of its height among those with a video, and the order of two
    entries by the height their labels were printed from. *)
Definition raw_formats (info : Info) : list RawFormat := default [] (info_formats info).

Definition label (fmt : RawFormat) : string :=
  quality_label (default 0 (fmt_height fmt)).

Definition entry_of (fmt : RawFormat) : Format := format_entry fmt (label fmt).

Definition first_of_height (raw : list RawFormat) (fmt : RawFormat) : Prop :=
  ∃ pre post, raw = pre ++ fmt :: post ∧ has_video fmt = true ∧
    ∀ g, g ∈ pre → has_video g = true → fmt_height g ≠ fmt_height fmt.

Definition taller (x y : Format) : Prop :=
  ∃ a b, quality x = quality_label a ∧ quality y = quality_label b ∧ b < a.

(** Exceptions, as the two [except] clauses of the handlers tell them
    apart. *)
Inductive exn :=
  | DownloadError (msg : string)
  | Exception (msg : string).

Definition result (A : Type) : Type := A + exn.

(** The value of [formats[:10]] at line 103: the loop, the sort, the
    appended audio entry, the slice. A failing sort key is a [ValueError]. *)
Definition build_formats (info : Info) : result (list Format) :=
  let formats := (collect_formats info).1 in
  match sort_reverse sort_key formats with
  | Some formats =>
      let formats := formats ++ [audio_only] in
      inl (take 10 formats)
  | None => inr (Exception "ValueError")
  end.

Definition build_video_info (info : Info) : result VideoInfo :=
  match build_formats info with
  | inl fs =>
      inl {| title := dict_get (info_title info) "Unknown Title";
             duration := dict_get (info_duration info) 0;
             thumbnail := dict_get (info_thumbnail info) "";
             uploader := dict_get (info_uploader info) "Unknown";
             view_count := dict_get (info_view_count info) 0;
             formats := fs |}
  | inr e => inr e
  end.

(** The entries of a catalog that stand for a video resolution. *)
Definition video_entries (l : list Format) : list Format :=
  filter (λ x, quality x ≠ quality audio_only) l.

(** ** The engine, the file system and the request state *)

Inductive postprocessor :=
  | FFmpegExtractAudio (preferredcodec preferredquality : string).

(** [ydl_opts]; an option the dictionary does not set is [None], [false]
    or the empty list. *)
Record YdlOpts := mkYdlOpts {
  opt_format : option string;
  opt_outtmpl : option string;
  opt_postprocessors : list postprocessor;
  opt_cookies : string;
  opt_quiet : bool;
  opt_no_warnings : bool;
  opt_extract_flat : option bool
}.

(** A directory maps to its listing, in the order [os.listdir] returns. *)
Abbreviation filesystem := (gmap string (list string)).

(** What the code asks of yt-dlp. *)
Inductive call :=
  | NewYoutubeDL (o : YdlOpts)
  | ExtractInfo (o : YdlOpts) (url : string) (download : bool)
  | Download (o : YdlOpts) (urls : list string).

(** The behaviour of yt-dlp and of the remote host, unknown to the
    handlers: what a metadata query answers, and what a download answers
    and does to the file system. *)
Record Engine := mkEngine {
  engine_extract_info : YdlOpts → string → result Info;
  engine_download :
    YdlOpts → list string → filesystem → result unit * filesystem
}.

Record World := mkWorld {
  fs : filesystem;
  calls : list call;                (* engine calls, oldest first *)
  flashes : list (string * string); (* [flash(message, category)] *)
  logged : list string              (* [app.logger.error] *)
}.

(** State and exceptions. *)
Definition M (A : Type) : Type := World → result A * World.

Definition ret {A} (a : A) : M A := λ w, (inl a, w).
Definition raise {A} (e : exn) : M A := λ w, (inr e, w).
Definition bind {A B} (m : M A) (f : A → M B) : M B :=
  λ w, match m w with
       | (inl a, w') => f a w'
       | (inr e, w') => (inr e, w')
       end.

Notation "x ←ᴹ m ; k" := (bind m (λ x, k))
  (at level 100, m at next level, right associativity).

Definition lift {A} (r : result A) : M A := λ w, (r, w).

Definition record_call (c : call) : M unit :=
  λ w, (inl (), mkWorld (fs w) (calls w ++ [c]) (flashes w) (logged w)).

Definition flash (message category : string) : M unit :=
  λ w, (inl (), mkWorld (fs w) (calls w) (flashes w ++ [(message, category)]) (logged w)).

Definition logger_error (msg : string) (w : World) : World :=
  mkWorld (fs w) (calls w) (flashes w) (logged w ++ [msg]).

(** [yt_dlp.YoutubeDL(ydl_opts)] *)
Definition YoutubeDL (o : YdlOpts) : M unit := record_call (NewYoutubeDL o).

(** [ydl.extract_info(url, download=False)] *)
Definition ydl_extract_info (E : Engine) (o : YdlOpts) (url : string) : M Info :=
  _ ←ᴹ record_call (ExtractInfo o url false);
  lift (engine_extract_info E o url).

(** [ydl.download([url])] *)
Definition ydl_download (E : Engine) (o : YdlOpts) (urls : list string) : M unit :=
  _ ←ᴹ record_call (Download o urls);
  λ w, let '(r, fs') := engine_download E o urls (fs w) in
       (r, mkWorld fs' (calls w) (flashes w) (logged w)).

(** [tempfile.mkdtemp()]: a new, empty directory under a name not in use. *)
Definition mkdtemp : M string :=
  λ w, let d := fresh_string "/tmp/tmp" (fs w) in
       (inl d, mkWorld (<[d:=[]]> (fs w)) (calls w) (flashes w) (logged w)).

(** [os.listdir(d)] *)
Definition listdir (d : string) : M (list string) :=
  λ w, match fs w !! d with
       | Some l => (inl l, w)
       | None => (inr (Exception "FileNotFoundError"), w)
       end.

(** ** The request handlers *)

Inductive body :=
  | ErrorBody (error : string)
  | VideoInfoBody (v : VideoInfo).

Inductive response :=
  | Json (b : body) (status : nat)                 (* [jsonify(...), status] *)
  | Redirect (location : string)                   (* [redirect(...)] *)
  | SendFile (path : string) (download_name : string).

(** [url_for('index')] *)
Definition index_url : string := "/".

(** [request.form], the fields of the submitted form. *)
Abbreviation form := (gmap string string).

(** The [try] block of [get_video_info] (lines 47-106). *)
Definition get_video_info_try (E : Engine) (f : form) : M response :=
  let url := strip (default "" (f !! "url")) in
  if bool_decide (url = "") then
    ret (Json (ErrorBody "Please enter a YouTube URL") 400)
  else if negb (is_valid_youtube_url url) then
    ret (Json (ErrorBody "Please enter a valid YouTube URL") 400)
  else
    let ydl_opts :=
      {| opt_format := None; opt_outtmpl := None; opt_postprocessors := [];
         opt_cookies := "cookies.txt";
         opt_quiet := true; opt_no_warnings := true;
         opt_extract_flat := Some false |} in
    _ ←ᴹ YoutubeDL ydl_opts;
    info ←ᴹ ydl_extract_info E ydl_opts url;
    video_info ←ᴹ lift (build_video_info info);
    ret (Json (VideoInfoBody video_info) 200).

(** [get_video_info] with its two [except] clauses. *)
Definition get_video_info (E : Engine) (f : form) (w : World) : response * World :=
  match get_video_info_try E f w with
  | (inl r, w') => (r, w')
  | (inr (DownloadError e), w') =>
      (Json (ErrorBody
         "Failed to fetch video information. Please check the URL and try again.") 400,
       logger_error ("yt-dlp error: " +:+ e) w')
  | (inr (Exception e), w') =>
      (Json (ErrorBody "An unexpected error occurred. Please try again.") 500,
       logger_error ("Unexpected error: " +:+ e) w')
  end.

(** The choice of [ydl_opts] in [download_video] (lines 130-147). *)
Definition download_opts (format_id temp_dir : string) : YdlOpts :=
  if bool_decide (format_id = "bestaudio") then
    {| opt_format := Some "bestaudio/best";
       opt_outtmpl := Some (path_join temp_dir "%(title)s.%(ext)s");
       opt_postprocessors := [FFmpegExtractAudio "mp3" "192"];
       opt_cookies := "/etc/secrets/cookies.txt";
       opt_quiet := false; opt_no_warnings := false; opt_extract_flat := None |}
  else
    {| opt_format := Some format_id;
       opt_outtmpl := Some (path_join temp_dir "%(title)s.%(ext)s");
       opt_postprocessors := [];
       opt_cookies := "/etc/secrets/cookies.txt";
       opt_quiet := false; opt_no_warnings := false; opt_extract_flat := None |}.

(** [request.form.get('format_id', 'best')] *)
Definition requested_format (f : form) : string := default "best" (f !! "format_id").

(** The [try] block of [download_video] (lines 119-170). *)
Definition download_video_try (E : Engine) (f : form) : M response :=
  let url := strip (default "" (f !! "url")) in
  let format_id := requested_format f in
  if bool_decide (url = "") || negb (is_valid_youtube_url url) then
    _ ←ᴹ flash "Invalid YouTube URL" "error";
    ret (Redirect index_url)
  else
    temp_dir ←ᴹ mkdtemp;
    let ydl_opts := download_opts format_id temp_dir in
    _ ←ᴹ YoutubeDL ydl_opts;
    info ←ᴹ ydl_extract_info E ydl_opts url;
    let title := dict_get (info_title info) "video" in
    _ ←ᴹ ydl_download E ydl_opts [url];
    downloaded_files ←ᴹ listdir temp_dir;
    match downloaded_files with
    | [] =>
        _ ←ᴹ flash "Download failed. No file was created." "error";
        ret (Redirect index_url)
    | first :: _ =>
        let file_path := path_join temp_dir first in
        ret (SendFile file_path first)
    end.

(** [download_video] with its two [except] clauses. *)
Definition download_video (E : Engine) (f : form) (w : World) : response * World :=
  match download_video_try E f w with
  | (inl r, w') => (r, w')
  | (inr (DownloadError e), w') =>
      let '(_, w'') :=
        flash "Download failed. Please try again with a different quality option."
              "error" (logger_error ("Download error: " +:+ e) w') in
      (Redirect index_url, w'')
  | (inr (Exception e), w') =>
      let '(_, w'') :=
        flash "An unexpected error occurred during download."
              "error" (logger_error ("Unexpected download error: " +:+ e) w') in
      (Redirect index_url, w'')
  end.

(** ** The list of formats on Python objects

    Lines 68-103 again, with the lists and the set as objects in a store:
    [info['formats']] is an object the caller owns, [formats] and
    [seen_qualities] are allocated by the code, the loop reads the input
    list by index as a Python [for] does, [append] and [sort] update
    [formats] in place and the slice allocates the result. *)
Inductive object :=
  | RawList (l : list RawFormat)
  | FormatList (l : list Format)
  | StrSet (s : gset string).

Abbreviation store := (gmap nat object).

Definition new (o : object) (h : store) : nat * store :=
  let a := fresh (dom h) in (a, <[a:=o]> h).





(** ** Concrete inputs

    The inputs of scenario B and of the ten-heights case. *)
Definition raw_video (id : string) (h : Z) : RawFormat :=
  {| fmt_format_id := id; fmt_vcodec := Some "avc1"; fmt_height := Some h;
     fmt_ext := Value "mp4"; fmt_filesize := None; fmt_fps := None |}.

Definition info_of (raw : list RawFormat) : Info :=
  {| info_title := Absent; info_duration := Absent; info_thumbnail := Absent;
     info_uploader := Absent; info_view_count := Absent; info_formats := Some raw |}.

Definition scenario_B : Info :=
  info_of [raw_video "22" 720; raw_video "18" 480; raw_video "136" 720].

Definition ten_heights : Info :=
  info_of [raw_video "160" 144; raw_video "133" 240; raw_video "134" 360;
           raw_video "135" 480; raw_video "136" 720; raw_video "137" 1080;
           raw_video "271" 1440; raw_video "313" 2160; raw_video "571" 4320;
           raw_video "597" 96].

(** Three engines for the three ways a download can end: the download
    raises, it returns without writing a file, it writes one file into the
    directory of [outtmpl]. *)
Fixpoint dirname (p : string) : string :=
  match p with
  | String c p' => if bool_decide ("/"%char ∈ chars p') then String c (dirname p') else ""
  | EmptyString => ""
  end.

Definition no_info : Info :=
  {| info_title := Value "Never Gonna Give You Up"; info_duration := Value 212;
     info_thumbnail := Absent; info_uploader := Null; info_view_count := Absent;
     info_formats := None |}.

Definition engine_raising : Engine :=
  {| engine_extract_info := λ _ _, inl no_info;
     engine_download := λ _ _ files, (inr (DownloadError "HTTP Error 403"), files) |}.

Definition engine_silent : Engine :=
  {| engine_extract_info := λ _ _, inl no_info;
     engine_download := λ _ _ files, (inl (), files) |}.

Definition engine_writing : Engine :=
  {| engine_extract_info := λ _ _, inl no_info;
     engine_download := λ o _ files,
       match opt_outtmpl o with
       | Some t => (inl (), <[dirname t := ["Never Gonna Give You Up.mp4"]]> files)
       | None => (inl (), files)
       end |}.

Definition empty_world : World :=
  {| fs := ∅; calls := []; flashes := []; logged := [] |}.

Definition scenario_A_form : form :=
  {[ "url" := "https://www.youtube.com/watch?v=dQw4w9WgXcQ" ]}.

Definition scenario_C_form : form := {[ "url" := "not a url" ]}.

(** The pattern before the optional path group, and the strings it
    matches: scheme, [www.], host, dot, top-level domain, slash. *)
Definition url_origin : regex :=
  Seq (opt (Group 1 url_scheme))
 (Seq (opt (Group 2 (lit "www.")))
 (Seq (Group 3 url_host)
 (Seq (lit ".")
 (Seq (Group 4 (Alt (lit "com") (lit "be")))
      (lit "/"))))).

Definition origin_shape (origin : string) : Prop :=
  ∃ scheme www host tld,
    origin = scheme +:+ www +:+ host +:+ "." +:+ tld +:+ "/" ∧
    scheme ∈ ["https://"; "http://"; ""] ∧
    www ∈ ["www."; ""] ∧
    host ∈ ["youtube"; "youtu"; "youtube-nocookie"] ∧
    tld ∈ ["com"; "be"].

(** Two patterns the matcher cannot tell apart. *)
Definition run_equiv (r r' : regex) : Prop :=
  ∀ s g k, run r s g k = run r' s g k.

(** The [ydl_opts] of [get_video_info] (lines 56-61). *)
Definition info_opts : YdlOpts :=
  {| opt_format := None; opt_outtmpl := None; opt_postprocessors := [];
     opt_cookies := "cookies.txt";
     opt_quiet := true; opt_no_warnings := true;
     opt_extract_flat := Some false |}.



Definition answers {A} (f : field A) (d : A) (out : option A) : Prop :=
  match f with
  | Absent => out = Some d
  | Null => out = None
  | Value a => out = Some a
  end.

(** A form whose URL has a space in front. *)
Definition padded_form : form :=
  {[ "url" := " https://www.youtube.com/watch?v=dQw4w9WgXcQ" ]}.

(** * Properties *)

(** ** Strings *)

Lemma string_app_cons (c : ascii) (a b : string) :
  String c a +:+ b = String c (a +:+ b).
Proof. done. Qed.

Lemma string_app_nil_l (s : string) : "" +:+ s = s.
Proof. done. Qed.

Lemma string_app_nil_r (s : string) : s +:+ "" = s.
Proof. induction s as [|c s IH]; [done|]. by rewrite string_app_cons, IH. Qed.

Lemma string_app_assoc (a b c : string) : (a +:+ b) +:+ c = a +:+ (b +:+ c).
Proof. induction a as [|x a IH]; [done|]. by rewrite !string_app_cons, IH. Qed.

Lemma string_length_app (a b : string) :
  String.length (a +:+ b) = (String.length a + String.length b)%nat.
Proof. induction a as [|x a IH]; [done|]. rewrite string_app_cons. simpl. by rewrite IH. Qed.

(** ** The matcher against the language of the pattern *)

Lemma match_plus_sound cs s k m :
  match_plus cs s k = Some m →
  ∃ p rest, s = p +:+ rest ∧ (∀ g, matches (Plus cs) p g g) ∧ k p rest = Some m.
Proof.
  revert k. induction s as [|c s IH]; intros k H; simpl in H; [done|].
  destruct (cs_match cs c) eqn:Hc; [|done].
  destruct (match_plus cs s _) as [m'|] eqn:Hm.
  - injection H as ->. apply IH in Hm as (p & rest & -> & Hp & Hk).
    exists (String c p), rest. split_and!; [done| |done].
    intros g. by apply M_plus_more.
  - exists (String c ""), s. split_and!; [done| |done].
    intros g. by apply M_plus_one.
Qed.

Lemma match_plus_complete cs p g g' :
  matches (Plus cs) p g g' →
  ∀ rest k, is_Some (k p rest) → is_Some (match_plus cs (p +:+ rest) k).
Proof.
  intros H. remember (Plus cs) as r eqn:Hr. revert Hr.
  induction H as [| | | | |cs' c g Hc|cs' c p g Hc Hp IH|]; intros Hr; try done.
  - injection Hr as ->. intros rest k Hk.
    rewrite string_app_cons, string_app_nil_l. simpl. rewrite Hc.
    by destruct (match_plus cs rest _).
  - injection Hr as ->. intros rest k Hk. rewrite string_app_cons. simpl.
    rewrite Hc. specialize (IH eq_refl rest (λ p rest, k (String c p) rest) Hk).
    by destruct IH as [m ->].
Qed.

Lemma run_sound r s g k m :
  run r s g k = Some m →
  ∃ p rest g', s = p +:+ rest ∧ matches r p g g' ∧ k p rest g' = Some m.
Proof.
  revert s g k. induction r as [|cs|r1 IH1 r2 IH2|r1 IH1 r2 IH2|cs|i r IH];
    intros s g k H; simpl in H.
  - exists "", s, g. split_and!; [done|constructor|done].
  - destruct s as [|c s]; [done|]. destruct (cs_match cs c) eqn:Hc; [|done].
    exists (String c ""), s, g. split_and!; [done|by constructor|done].
  - apply IH1 in H as (p1 & s1 & g1 & -> & H1 & H).
    apply IH2 in H as (p2 & s2 & g2 & -> & H2 & H).
    exists (p1 +:+ p2), s2, g2. split_and!; [|by econstructor|done].
    by rewrite string_app_assoc.
  - destruct (run r1 s g k) as [m'|] eqn:Hm.
    + injection H as ->. apply IH1 in Hm as (p & rest & g' & -> & Hp & Hk).
      exists p, rest, g'. split_and!; [done|by apply M_alt_l|done].
    + apply IH2 in H as (p & rest & g' & -> & Hp & Hk).
      exists p, rest, g'. split_and!; [done|by apply M_alt_r|done].
  - apply match_plus_sound in H as (p & rest & -> & Hp & Hk).
    by exists p, rest, g.
  - apply IH in H as (p & rest & g' & -> & Hp & Hk).
    exists p, rest, (<[i:=p]> g'). split_and!; [done|by constructor|done].
Qed.

Lemma run_complete r p g g' :
  matches r p g g' →
  ∀ rest k, is_Some (k p rest g') → is_Some (run r (p +:+ rest) g k).
Proof.
  induction 1 as [g|cs c g Hc|r1 r2 p1 p2 g g1 g2 _ IH1 _ IH2
                  |r1 r2 p g g' _ IH|r1 r2 p g g' _ IH
                  |cs c g Hc|cs c p g Hc Hp _|i r p g g' _ IH];
    intros rest k Hk; cbn [run].
  - done.
  - rewrite string_app_cons, string_app_nil_l. by rewrite Hc.
  - rewrite string_app_assoc. apply IH1, IH2, Hk.
  - destruct (IH rest k Hk) as [m ->]. done.
  - destruct (run r1 (p +:+ rest) g k); [done|]. by apply IH.
  - apply (match_plus_complete cs _ g g); [by constructor|done].
  - apply (match_plus_complete cs _ g g); [by constructor|done].
  - by apply IH.
Qed.

(** [re.match] succeeds exactly on the subjects that start with a word of
    the pattern. *)
Lemma re_match_is_Some r s :
  is_Some (re_match r s) ↔ ∃ p rest g', s = p +:+ rest ∧ matches r p ∅ g'.
Proof.
  unfold re_match. split.
  - intros [m H]. apply run_sound in H as (p & rest & g' & -> & Hp & _). eauto.
  - intros (p & rest & g' & -> & Hp). by eapply run_complete.
Qed.

Lemma re_match_sound r s m :
  re_match r s = Some m →
  ∃ rest, s = matched m +:+ rest ∧ matches r (matched m) ∅ (captured m).
Proof.
  unfold re_match. intros H.
  apply run_sound in H as (p & rest & g' & -> & Hp & [= <-]). eauto.
Qed.

(** ** The words of the URL pattern *)

Lemma matches_words r p g g' :
  matches r p g g' → ∀ l, words r = Some l → p ∈ l.
Proof.
  induction 1 as [g|cs c g Hc|r1 r2 p1 p2 g g1 g2 _ IH1 _ IH2
                  |r1 r2 p g g' _ IH|r1 r2 p g g' _ IH
                  |cs c g Hc|cs c p g Hc Hp _|i r p g g' _ IH];
    intros l Hl; simpl in Hl; simplify_option_eq.
  - set_solver.
  - destruct cs as [|d|]; simplify_eq. apply bool_decide_eq_true in Hc as ->.
    set_solver.
  - apply list_elem_of_bind. exists p1. split; [|by apply IH1].
    apply list_elem_of_bind. exists p2. split; [set_solver|by apply IH2].
  - apply elem_of_app. left. by apply IH.
  - apply elem_of_app. right. by apply IH.
  - by apply IH.
Qed.

Lemma words_matches r :
  ∀ l p g, words r = Some l → p ∈ l → ∃ g', matches r p g g'.
Proof.
  induction r as [|cs|r1 IH1 r2 IH2|r1 IH1 r2 IH2|cs|i r IH];
    intros l p g Hl Hp; simpl in Hl; simplify_option_eq.
  - apply list_elem_of_singleton in Hp as ->. eexists. constructor.
  - destruct cs as [|d|]; simplify_eq. apply list_elem_of_singleton in Hp as ->.
    eexists. constructor. by apply bool_decide_eq_true.
  - apply list_elem_of_bind in Hp as (p1 & Hp & Hp1).
    apply list_elem_of_bind in Hp as (p2 & Hp & Hp2).
    apply list_elem_of_singleton in Hp as ->.
    destruct (IH1 _ _ g eq_refl Hp1) as [g1 H1].
    destruct (IH2 _ _ g1 eq_refl Hp2) as [g2 H2].
    eexists. by econstructor.
  - apply elem_of_app in Hp as [Hp|Hp].
    + destruct (IH1 _ _ g eq_refl Hp) as [g' H']. eexists. by apply M_alt_l.
    + destruct (IH2 _ _ g eq_refl Hp) as [g' H']. eexists. by apply M_alt_r.
  - destruct (IH _ _ g Hl Hp) as [g' H']. eexists. by constructor.
Qed.

Lemma matches_rep n cs p g g' :
  matches (rep n cs) p g g' →
  g' = g ∧ String.length p = n ∧ Forall (λ c, cs_match cs c = true) (chars p).
Proof.
  revert p g g'. induction n as [|n IH]; intros p g g' H; simpl in H.
  - inversion H; subst. split_and!; [done..|constructor].
  - inversion H as [| |r1 r2 p1 p2 g0 g1 g2 H1 H2| | | | |]; subst.
    inversion H1; subst. apply IH in H2 as (-> & <- & HF).
    rewrite string_app_cons, string_app_nil_l. split_and!; [done..|].
    by constructor.
Qed.

Lemma rep_matches n cs p g :
  String.length p = n → Forall (λ c, cs_match cs c = true) (chars p) →
  matches (rep n cs) p g g.
Proof.
  revert n. induction p as [|c p IH]; intros n <- HF; simpl.
  - constructor.
  - inversion HF; subst.
    change (String c p) with (String c "" +:+ p).
    econstructor; [by constructor|by apply IH].
Qed.

Lemma matches_plus cs p g g' :
  matches (Plus cs) p g g' →
  g' = g ∧ p ≠ "" ∧ Forall (λ c, cs_match cs c = true) (chars p).
Proof.
  intros H. remember (Plus cs) as r eqn:Hr. revert Hr.
  induction H as [| | | | |cs' c g Hc|cs' c p g Hc Hp IH|]; intros Hr; try done.
  - injection Hr as ->. split_and!; [done..|]. by repeat constructor.
  - injection Hr as ->. destruct (IH eq_refl) as (_ & _ & HF).
    split_and!; [done..|]. by constructor.
Qed.

Lemma plus_matches cs p g :
  p ≠ "" → Forall (λ c, cs_match cs c = true) (chars p) → matches (Plus cs) p g g.
Proof.
  induction p as [|c p IH]; intros Hne HF; [done|].
  inversion HF; subst. destruct p as [|d p].
  - by apply M_plus_one.
  - apply M_plus_more; [done|]. by apply IH.
Qed.

Lemma matches_seq_inv r1 r2 p g g' :
  matches (Seq r1 r2) p g g' →
  ∃ p1 p2 g1, p = p1 +:+ p2 ∧ matches r1 p1 g g1 ∧ matches r2 p2 g1 g'.
Proof. inversion 1; subst; eauto 10. Qed.

Lemma matches_alt_inv r1 r2 p g g' :
  matches (Alt r1 r2) p g g' → matches r1 p g g' ∨ matches r2 p g g'.
Proof. inversion 1; subst; eauto. Qed.

Lemma matches_group_inv i r p g g' :
  matches (Group i r) p g g' → ∃ g1, g' = <[i:=p]> g1 ∧ matches r p g g1.
Proof. inversion 1; subst; eauto. Qed.

Lemma matches_eps_inv p g g' : matches Eps p g g' → p = "" ∧ g' = g.
Proof. by inversion 1. Qed.

Lemma words_lit s : words (lit s) = Some [s].
Proof. induction s as [|c s IH]; [done|]. simpl. by rewrite IH. Qed.

Lemma matches_lit s p g g' : matches (lit s) p g g' → p = s.
Proof.
  intros H. pose proof (matches_words _ _ _ _ H [s] (words_lit s)) as Hp.
  by apply list_elem_of_singleton in Hp.
Qed.

Lemma lit_matches s g : ∃ g', matches (lit s) s g g'.
Proof. apply (words_matches _ [s]); [apply words_lit|set_solver]. Qed.

(** The pattern up to the identifier. *)
Lemma matches_url_path p g g' : matches (opt (Group 5 url_path)) p g g' → path_shape p.
Proof.
  intros [H|H]%matches_alt_inv.
  - apply matches_group_inv in H as (g1 & _ & H). unfold url_path in H.
    apply matches_alt_inv in H as [->%matches_lit|H]; [left; set_solver|].
    apply matches_alt_inv in H as [->%matches_lit|H]; [left; set_solver|].
    apply matches_alt_inv in H as [->%matches_lit|H]; [left; set_solver|].
    apply matches_seq_inv in H as (q & t & g2 & -> & Hq & ->%matches_lit).
    apply matches_plus in Hq as (_ & Hne & HF).
    right. exists q. split_and!; [done..|].
    eapply Forall_impl; [exact HF|]. intros c Hc. by apply bool_decide_eq_true in Hc.
  - apply matches_eps_inv in H as [-> _]. left. set_solver.
Qed.

Lemma url_path_matches p g : path_shape p → ∃ g', matches (opt (Group 5 url_path)) p g g'.
Proof.
  intros [Hp|(q & -> & Hne & HF)].
  - apply list_elem_of_In in Hp. simpl in Hp.
    destruct Hp as [<-|[<-|[<-|[<-|[]]]]].
    + destruct (lit_matches "watch?v=" g) as [g' H]. eexists.
      apply M_alt_l, M_group, M_alt_l, H.
    + destruct (lit_matches "embed/" g) as [g' H]. eexists.
      apply M_alt_l, M_group, M_alt_r, M_alt_l, H.
    + destruct (lit_matches "v/" g) as [g' H]. eexists.
      apply M_alt_l, M_group, M_alt_r, M_alt_r, M_alt_l, H.
    + eexists. apply M_alt_r. constructor.
  - destruct (lit_matches "?v=" g) as [g' H].
    eexists. apply M_alt_l, M_group. unfold url_path.
    do 3 apply M_alt_r. econstructor; [|exact H].
    apply plus_matches; [done|].
    eapply Forall_impl; [exact HF|]. intros c Hc. by apply bool_decide_eq_true.
Qed.

Lemma matches_url_head p g g' : matches url_head p g g' → head_shape p.
Proof.
  unfold url_head. intros H.
  apply matches_seq_inv in H as (scheme & ? & g1 & -> & H1 & H).
  apply matches_seq_inv in H as (www & ? & g2 & -> & H2 & H).
  apply matches_seq_inv in H as (host & ? & g3 & -> & H3 & H).
  apply matches_seq_inv in H as (dot & ? & g4 & -> & ->%matches_lit & H).
  apply matches_seq_inv in H as (tld & ? & g5 & -> & H5 & H).
  apply matches_seq_inv in H as (slash & path & g6 & -> & ->%matches_lit & H).
  eapply matches_words in H1; [|reflexivity].
  eapply matches_words in H2; [|reflexivity].
  eapply matches_words in H3; [|reflexivity].
  eapply matches_words in H5; [|reflexivity].
  apply matches_url_path in H.
  exists scheme, www, host, tld, path. split_and!; done.
Qed.

Lemma url_head_matches p g : head_shape p → ∃ g', matches url_head p g g'.
Proof.
  intros (scheme & www & host & tld & path & -> & H1 & H2 & H3 & H5 & H).
  unfold url_head.
  apply (words_matches (opt (Group 1 url_scheme)) _ _ g eq_refl) in H1 as [g1 H1].
  apply (words_matches (opt (Group 2 (lit "www."))) _ _ g1 eq_refl) in H2 as [g2 H2].
  apply (words_matches (Group 3 url_host) _ _ g2 eq_refl) in H3 as [g3 H3].
  destruct (lit_matches "." g3) as [g4 H4].
  apply (words_matches (Group 4 (Alt (lit "com") (lit "be"))) _ _ g4 eq_refl)
    in H5 as [g5 H5].
  destruct (lit_matches "/" g5) as [g6 H6].
  destruct (url_path_matches path g6 H) as [g7 H7].
  exists g7. repeat (econstructor; [eassumption|]). exact H7.
Qed.

(** ** The URL validator *)

Lemma re_match_youtube url m :
  re_match youtube_regex url = Some m →
  ∃ head tok rest,
    url = head +:+ tok +:+ rest ∧ head_shape head ∧ token_shape tok ∧
    group m 6 = Some tok.
Proof.
  intros (rest & Hurl & H)%re_match_sound. unfold youtube_regex in H.
  apply matches_seq_inv in H as (head & tok & g1 & Hm & Hhead & Htok).
  apply matches_group_inv in Htok as (g2 & Hg & Htok).
  apply matches_rep in Htok as (-> & Hlen & HF).
  exists head, tok, rest. split_and!.
  - by rewrite Hurl, Hm, string_app_assoc.
  - by eapply matches_url_head.
  - split; [done|]. eapply Forall_impl; [exact HF|].
    intros c Hc. by apply bool_decide_eq_true in Hc.
  - unfold group. rewrite Hg. apply lookup_insert_eq.
Qed.

Lemma url_shape_valid url : url_shape url → is_Some (re_match youtube_regex url).
Proof.
  intros (head & tok & rest & -> & Hhead & Hlen & HF).
  destruct (url_head_matches head ∅ Hhead) as [g1 H1].
  apply re_match_is_Some. exists (head +:+ tok), rest, (<[6%nat:=tok]> g1).
  split; [by rewrite string_app_assoc|].
  econstructor; [exact H1|]. constructor. apply rep_matches; [done|].
  eapply Forall_impl; [exact HF|]. intros c Hc. by apply bool_decide_eq_true.
Qed.

Lemma is_valid_youtube_url_shape url :
  is_valid_youtube_url url = true ↔ url_shape url.
Proof.
  unfold is_valid_youtube_url. rewrite bool_decide_eq_true. split.
  - intros H. destruct (re_match youtube_regex url) as [m|] eqn:Hm; [|done].
    apply re_match_youtube in Hm as (head & tok & rest & ? & ? & ? & _).
    by exists head, tok, rest.
  - intros [m Hm]%url_shape_valid. by rewrite Hm.
Qed.

(** C4, as amended: an extracted token is 11 consecutive characters of the
    URL, none of them [&], [=], [%] or [?], standing right after a head of
    the accepted shape; scenario A yields [dQw4w9WgXcQ]; a URL that is not a
    head followed by such a token is rejected. *)
Theorem extract_video_id_token :
  (∀ url tok, extract_video_id url = Some tok →
     token_shape tok ∧
     ∃ head rest, url = head +:+ tok +:+ rest ∧ head_shape head) ∧
  extract_video_id "https://www.youtube.com/watch?v=dQw4w9WgXcQ" = Some "dQw4w9WgXcQ" ∧
  (∀ url, ¬ url_shape url → extract_video_id url = None).
Proof.
  split_and!.
  - intros url tok H. unfold extract_video_id in H.
    destruct (re_match youtube_regex url) as [m|] eqn:Hm; [|done].
    apply re_match_youtube in Hm as (head & tok' & rest & ? & ? & ? & Hg).
    rewrite Hg in H. injection H as <-. eauto.
  - vm_compute. reflexivity.
  - intros url Hn. unfold extract_video_id.
    destruct (re_match youtube_regex url) as [m|] eqn:Hm; [|done].
    destruct Hn. apply is_valid_youtube_url_shape.
    unfold is_valid_youtube_url. apply bool_decide_eq_true. by rewrite Hm.
Qed.

Lemma extract_video_id_token_witness :
  token_shape "dQw4w9WgXcQ" ∧
  ∃ head rest,
    "https://www.youtube.com/watch?v=dQw4w9WgXcQ" = head +:+ "dQw4w9WgXcQ" +:+ rest ∧
    head_shape head.
Proof.
  apply (proj1 extract_video_id_token "https://www.youtube.com/watch?v=dQw4w9WgXcQ").
  vm_compute. reflexivity.
Defined.

(** C4 as stated fails: a token need not be made of letters, digits, [-]
    and [_]. *)
Lemma extract_video_id_not_alnum :
  extract_video_id "https://www.youtube.com/feed/history" = Some "feed/histor" ∧
  ¬ video_id_shape "feed/histor".
Proof.
  split; [vm_compute; reflexivity|].
  intros [_ HF]. apply Forall_lookup_1 with (i := 4%nat) (x := "/"%char) in HF; done.
Qed.

(** C9: an accepted URL stays accepted whatever is appended to it. *)
Theorem is_valid_youtube_url_prefix (url suffix : string) :
  is_valid_youtube_url url = true → is_valid_youtube_url (url +:+ suffix) = true.
Proof.
  rewrite !is_valid_youtube_url_shape.
  intros (head & tok & rest & -> & Hhead & Htok).
  exists head, tok, (rest +:+ suffix). split; [|done].
  by rewrite !string_app_assoc.
Qed.

Lemma is_valid_youtube_url_prefix_witness :
  is_valid_youtube_url
    ("https://www.youtube.com/watch?v=dQw4w9WgXcQ" +:+ "&t=42s trailing") = true.
Proof.
  apply is_valid_youtube_url_prefix. vm_compute. reflexivity.
Defined.

(** What is appended is tolerated, not always ignored: it can move the
    token, because the alternative [.+\?v=] is tried before the bare
    path. *)
Example appended_text_moves_token :
  extract_video_id "youtube.com/aaaaaaaaaaa" = Some "aaaaaaaaaaa" ∧
  extract_video_id ("youtube.com/aaaaaaaaaaa" +:+ "?v=bbbbbbbbbbb") = Some "bbbbbbbbbbb".
Proof. split; vm_compute; reflexivity. Qed.

(** C10: the validator accepts a URL exactly when the extractor returns a
    token. *)
Theorem is_valid_iff_extract (url : string) :
  is_valid_youtube_url url = true ↔ extract_video_id url ≠ None.
Proof.
  unfold is_valid_youtube_url, extract_video_id. rewrite bool_decide_eq_true.
  destruct (re_match youtube_regex url) as [m|] eqn:Hm; [|done].
  apply re_match_youtube in Hm as (head & tok & rest & _ & _ & _ & ->). done.
Qed.

(** ** Printing and reading back a height *)

Lemma chars_app (a b : string) : chars (a +:+ b) = chars a ++ chars b.
Proof.
  induction a as [|c a IH]; [done|].
  rewrite string_app_cons. unfold chars in *. simpl. by rewrite IH.
Qed.

Lemma chars_inj (a b : string) : chars a = chars b → a = b.
Proof.
  unfold chars. intros H.
  rewrite <-(String.string_of_list_ascii_of_string a),
          <-(String.string_of_list_ascii_of_string b). by rewrite H.
Qed.

Lemma string_app_inj_r (a b t : string) : a +:+ t = b +:+ t → a = b.
Proof.
  intros H. apply chars_inj. apply (f_equal chars) in H.
  rewrite !chars_app in H. by apply app_inv_tail in H.
Qed.

Lemma numeral_char_plain c :
  numeral_char c → isspace c = false ∧ c ≠ "p"%char.
Proof.
  intros [[d Hd]| ->]; [|done].
  destruct c as [[] [] [] [] [] [] [] []]; simplify_eq/=; done.
Qed.

Lemma digit_char_first c d :
  Ascii.is_nat c = Some d → c ≠ "-"%char ∧ c ≠ "+"%char.
Proof. destruct c as [[] [] [] [] [] [] [] []]; intros; simplify_eq/=; done. Qed.

Lemma pretty_N_char_digit (r : N) :
  (r < 10)%N → Ascii.is_nat (pretty_N_char r) = Some (N.to_nat r).
Proof.
  intros Hr.
  assert (r = 0 ∨ r = 1 ∨ r = 2 ∨ r = 3 ∨ r = 4 ∨ r = 5 ∨ r = 6 ∨ r = 7 ∨
          r = 8 ∨ r = 9)%N as H by lia.
  destruct_or!; subst; done.
Qed.

Lemma pretty_N_go_digits (x : N) :
  (0 < x)%N →
  ∃ d, d ≠ "" ∧ (∀ s, pretty_N_go x s = d +:+ s) ∧
       Forall (λ c, is_Some (Ascii.is_nat c)) (chars d) ∧
       ∀ acc b s,
         int_digits acc b (d +:+ s) =
         int_digits (acc * 10 ^ Z.of_nat (String.length d) + Z.of_N x) true s.
Proof.
  induction (N.lt_wf_0 x) as [x _ IH]. intros Hx.
  pose proof (N.mod_lt x 10 ltac:(lia)) as Hr.
  pose proof (N.div_mod x 10 ltac:(lia)) as Hqr.
  pose proof (pretty_N_char_digit _ Hr) as Hc.
  destruct (decide (x `div` 10 = 0)%N) as [Hq|Hq].
  - exists (String (pretty_N_char (x `mod` 10)) ""). split_and!.
    + done.
    + intros s. rewrite pretty_N_go_step by done. by rewrite Hq, pretty_N_go_0.
    + repeat constructor. by rewrite Hc.
    + intros acc b s. rewrite string_app_cons, string_app_nil_l. simpl.
      rewrite Hc. f_equal. lia.
  - destruct (IH (x `div` 10)%N) as (d & Hne & Hd & HF & Hint);
      [by apply N.div_lt|by apply N.neq_0_lt_0|].
    exists (d +:+ String (pretty_N_char (x `mod` 10)) ""). split_and!.
    + by destruct d.
    + intros s. rewrite pretty_N_go_step by done.
      by rewrite Hd, string_app_assoc.
    + rewrite chars_app. apply Forall_app. split; [done|].
      repeat constructor. by rewrite Hc.
    + intros acc b s. rewrite string_app_assoc, Hint.
      rewrite string_app_cons, string_app_nil_l. simpl. rewrite Hc.
      f_equal. rewrite string_length_app. simpl.
      rewrite Nat2Z.inj_add, Z.pow_add_r by lia. lia.
Qed.

Lemma lstrip_plain c s : isspace c = false → lstrip (String c s) = String c s.
Proof. intros H. simpl. by rewrite H. Qed.

Lemma rstrip_plain s : Forall (λ c, isspace c = false) (chars s) → rstrip s = s.
Proof.
  induction s as [|c s IH]; intros HF; [done|].
  inversion HF as [|?? Hc HF']; subst. simpl. rewrite (IH HF'), Hc.
  by destruct s.
Qed.

Lemma strip_plain s : Forall (λ c, isspace c = false) (chars s) → strip s = s.
Proof.
  intros HF. unfold strip. destruct s as [|c s]; [done|].
  inversion HF; subst. rewrite lstrip_plain by done. by apply rstrip_plain.
Qed.

Lemma str_pos (p : positive) :
  ∃ d, str (Z.pos p) = d ∧ str (Z.neg p) = "-" +:+ d ∧ d ≠ "" ∧
       Forall (λ c, is_Some (Ascii.is_nat c)) (chars d) ∧
       int_digits 0 false d = Some (Z.pos p).
Proof.
  destruct (pretty_N_go_digits (N.pos p)) as (d & Hne & Hd & HF & Hint); [done|].
  exists d.
  assert (pretty (N.pos p) = d) as Hp.
  { unfold pretty, pretty_N. rewrite decide_False by done.
    by rewrite Hd, string_app_nil_r. }
  split_and!; [done|unfold str, pretty, pretty_Z; by rewrite <-Hp|done..|].
  specialize (Hint 0 false ""). rewrite string_app_nil_r in Hint.
  by rewrite Hint.
Qed.

Lemma str_chars (h : Z) : Forall numeral_char (chars (str h)).
Proof.
  destruct h as [|p|p].
  - change (Forall numeral_char ["0"%char]).
    apply Forall_cons. split; [left; by eexists|apply Forall_nil_2].
  - destruct (str_pos p) as (d & -> & _ & _ & HF & _).
    eapply Forall_impl; [exact HF|]. by left.
  - destruct (str_pos p) as (d & _ & -> & _ & HF & _).
    rewrite chars_app. apply Forall_app. split.
    + apply Forall_cons. split; [by right|apply Forall_nil_2].
    + eapply Forall_impl; [exact HF|]. by left.
Qed.

(** [int(str(h)) == h] *)
Lemma int_str (h : Z) : int (str h) = Some h.
Proof.
  unfold int. rewrite strip_plain; last first.
  { eapply Forall_impl; [apply str_chars|]. intros c Hc.
    by apply numeral_char_plain in Hc as [? _]. }
  destruct h as [|p|p]; [done|..];
    destruct (str_pos p) as (d & Hpos & Hneg & Hne & HF & Hint).
  - rewrite Hpos. destruct d as [|c d]; [done|].
    inversion HF as [|?? [n Hn] _]; subst.
    destruct (digit_char_first _ _ Hn) as [Hm Hp].
    destruct c as [[] [] [] [] [] [] [] []]; done.
  - rewrite Hneg, string_app_cons, string_app_nil_l. by rewrite Hint.
Qed.

Lemma replace_plain (old : ascii) (d : string) :
  Forall (λ c, c ≠ old) (chars d) →
  replace old "" (d +:+ String old "") = d.
Proof.
  induction d as [|c d IH]; intros HF.
  - rewrite string_app_nil_l. simpl. by rewrite bool_decide_eq_true_2.
  - inversion HF; subst. rewrite string_app_cons. simpl.
    rewrite bool_decide_eq_false_2 by done. by rewrite IH.
Qed.

(** The sort key reads back the height a label was printed from. *)
Lemma int_quality_label (h : Z) :
  int (replace "p" "" (quality_label h)) = Some h.
Proof.
  unfold quality_label. rewrite replace_plain; [apply int_str|].
  eapply Forall_impl; [apply str_chars|]. intros c Hc.
  by apply numeral_char_plain in Hc as [_ ?].
Qed.

Lemma quality_label_inj (h1 h2 : Z) : quality_label h1 = quality_label h2 → h1 = h2.
Proof.
  unfold quality_label, str. intros H%string_app_inj_r. by apply (inj pretty) in H.
Qed.

(** ** The sort *)

Section sort_facts.
Context {A : Type}.
Implicit Types (l : list (Z * A)) (k : Z) (x : A).

Lemma insert_desc_perm k x l : insert_desc k x l ≡ₚ (k, x) :: l.
Proof.
  induction l as [|[k' y] l IH]; simpl; [done|].
  destruct (k' <=? k); [done|]. by rewrite IH, Permutation_swap.
Qed.

Lemma sort_desc_perm l : sort_desc l ≡ₚ l.
Proof.
  induction l as [|[k x] l IH]; simpl; [done|].
  by rewrite insert_desc_perm, IH.
Qed.

Lemma insert_desc_sorted k x l :
  StronglySorted (λ a b, b.1 ≤ a.1) l →
  StronglySorted (λ a b, b.1 ≤ a.1) (insert_desc k x l).
Proof.
  induction 1 as [|[k' y] l Hl IH Hall]; simpl.
  - repeat constructor.
  - destruct (Z.leb_spec k' k) as [Hle|Hgt].
    + constructor; [by constructor|].
      constructor; [done|]. eapply Forall_impl; [exact Hall|].
      simpl. intros [k'' z] ?; simpl in *. lia.
    + constructor; [done|].
      rewrite insert_desc_perm. constructor; [simpl; lia|done].
Qed.

Lemma sort_desc_sorted l : StronglySorted (λ a b, b.1 ≤ a.1) (sort_desc l).
Proof.
  induction l as [|[k x] l IH]; simpl; [constructor|].
  by apply insert_desc_sorted.
Qed.

(** Elements with equal keys keep their relative order. *)
Lemma insert_desc_stable q k x l :
  filter (λ a, a.1 = q) (insert_desc k x l) = filter (λ a, a.1 = q) ((k, x) :: l).
Proof.
  induction l as [|[k' y] l IH]; simpl; [done|].
  destruct (Z.leb_spec k' k) as [Hle|Hgt]; [done|].
  rewrite (filter_cons _ (k', y)), IH, !filter_cons. simpl.
  repeat case_decide; try done. lia.
Qed.

Lemma sort_desc_stable q l :
  filter (λ a, a.1 = q) (sort_desc l) = filter (λ a, a.1 = q) l.
Proof.
  induction l as [|[k x] l IH]; simpl; [done|].
  by rewrite insert_desc_stable, !filter_cons, IH.
Qed.

Lemma keyed_spec (key : A → option Z) (xs : list A) kl :
  keyed key xs = Some kl →
  kl.*2 = xs ∧ Forall (λ a, key a.2 = Some a.1) kl.
Proof.
  revert kl. induction xs as [|x xs IH]; intros kl H; simpl in H.
  - by injection H as <-.
  - destruct (key x) as [k|] eqn:Hk; [|done].
    destruct (keyed key xs) as [kl'|]; [|done]. injection H as <-.
    destruct (IH kl' eq_refl) as [<- HF]. split; [done|]. by constructor.
Qed.

Lemma keyed_is_Some (key : A → option Z) (xs : list A) :
  Forall (λ x, is_Some (key x)) xs → is_Some (keyed key xs).
Proof.
  induction 1 as [|x xs [k Hk] _ [kl IH]]; simpl; [done|].
  by rewrite Hk, IH.
Qed.

Lemma keyed_filter (key : A → option Z) q kl :
  Forall (λ a, key a.2 = Some a.1) kl →
  filter (λ x, key x = Some q) (kl.*2) = (filter (λ a, a.1 = q) kl).*2.
Proof.
  induction 1 as [|[k x] kl Hk _ IH]; [done|]. simpl in Hk.
  rewrite fmap_cons, !filter_cons, IH. simpl. rewrite Hk.
  repeat case_decide; simplify_eq; done.
Qed.

(** What [list.sort(key=key, reverse=True)] leaves in the list. *)
Lemma sort_reverse_spec (key : A → option Z) (xs xs' : list A) :
  sort_reverse key xs = Some xs' →
  xs' ≡ₚ xs ∧
  StronglySorted (λ x y, ∃ a b, key x = Some a ∧ key y = Some b ∧ b ≤ a) xs' ∧
  ∀ q, filter (λ x, key x = Some q) xs' = filter (λ x, key x = Some q) xs.
Proof.
  unfold sort_reverse. intros H.
  destruct (keyed key xs) as [kl|] eqn:Hkl; [|done]. injection H as <-.
  apply keyed_spec in Hkl as [<- HF].
  assert (Forall (λ a, key a.2 = Some a.1) (sort_desc kl)) as HF'.
  { by rewrite sort_desc_perm. }
  split_and!.
  - by rewrite sort_desc_perm.
  - pose proof (sort_desc_sorted kl) as Hs. revert HF'.
    induction Hs as [|[k x] l _ IH Hall]; intros HF'; [constructor|].
    apply Forall_cons in HF' as [Hk HF']. rewrite fmap_cons.
    constructor; [by apply IH|]. simpl in *.
    apply Forall_fmap, Forall_forall. intros [k' y] Hy.
    rewrite Forall_forall in Hall, HF'. specialize (Hall _ Hy).
    specialize (HF' _ Hy). simpl in *. eauto.
  - intros q. rewrite !keyed_filter by done. by rewrite sort_desc_stable.
Qed.

Lemma sort_reverse_is_Some (key : A → option Z) (xs : list A) :
  Forall (λ x, is_Some (key x)) xs → is_Some (sort_reverse key xs).
Proof.
  intros [kl Hkl]%keyed_is_Some. unfold sort_reverse. by rewrite Hkl.
Qed.
End sort_facts.

(** ** The loop over the reported formats *)

Lemma label_eq (g f : RawFormat) :
  has_video g = true → has_video f = true →
  label g = label f ↔ fmt_height g = fmt_height f.
Proof.
  unfold has_video, label. intros Hg Hf.
  apply andb_true_iff in Hg as [_ Hg]. apply andb_true_iff in Hf as [_ Hf].
  destruct (fmt_height g) as [a|], (fmt_height f) as [b|]; try done. simpl.
  split; [by intros ->%quality_label_inj|by intros [= ->]].
Qed.

Lemma first_of_height_snoc raw x fmt :
  first_of_height raw fmt → first_of_height (raw ++ [x]) fmt.
Proof.
  intros (pre & post & -> & Hv & Hpre). exists pre, (post ++ [x]).
  by rewrite <-app_assoc.
Qed.

Lemma collect_invariant (raw : list RawFormat) :
  let st := foldl loop_body ([], ∅) raw in
  (∀ q, q ∈ st.2 ↔ q ∈ quality <$> st.1) ∧
  NoDup (quality <$> st.1) ∧
  (∀ e, e ∈ st.1 → ∃ fmt, first_of_height raw fmt ∧ e = entry_of fmt) ∧
  (∀ fmt, fmt ∈ raw → has_video fmt = true → label fmt ∈ quality <$> st.1).
Proof.
  induction raw as [|x raw IH] using rev_ind; simpl.
  { split_and!; [set_solver|constructor|set_solver..]. }
  rewrite foldl_snoc. simpl in IH.
  destruct (foldl loop_body ([], ∅) raw) as [formats seen].
  destruct IH as (I1 & I2 & I3 & I4). simpl in *. unfold loop_body.
  destruct (has_video x) eqn:Hx; [fold (label x); case_decide as Hseen|]; simpl.
  - split_and!; [done..| |].
    + intros e He. destruct (I3 e He) as (fmt & Hf & ->).
      eauto using first_of_height_snoc.
    + intros fmt [Hin| ->%list_elem_of_singleton]%elem_of_app Hv; [by apply I4|].
      by apply I1.
  - split_and!.
    + intros q. rewrite fmap_app, elem_of_app, elem_of_union, I1. simpl.
      by rewrite elem_of_singleton, list_elem_of_singleton.
    + rewrite fmap_app. apply NoDup_app. split_and!; [done| |apply NoDup_singleton].
      intros q Hq ->%list_elem_of_singleton. by apply Hseen, I1.
    + intros e [He| ->%list_elem_of_singleton]%elem_of_app.
      * destruct (I3 e He) as (fmt & Hf & ->). eauto using first_of_height_snoc.
      * exists x. split; [|done]. exists raw, []. split_and!; [done..|].
        intros g Hg Hv Heq. apply Hseen, I1.
        apply label_eq in Heq as <-; [|done..]. by apply I4.
    + intros fmt [Hin| ->%list_elem_of_singleton]%elem_of_app Hv;
        rewrite fmap_app, elem_of_app; [left; by apply I4|right].
      by apply list_elem_of_singleton.
  - split_and!; [done..| |].
    + intros e He. destruct (I3 e He) as (fmt & Hf & ->).
      eauto using first_of_height_snoc.
    + intros fmt [Hin| ->%list_elem_of_singleton]%elem_of_app Hv; [by apply I4|].
      congruence.
Qed.

Lemma collect_formats_raw info :
  collect_formats info = foldl loop_body ([], ∅) (raw_formats info).
Proof. unfold collect_formats, raw_formats. by destruct (info_formats info). Qed.

Lemma entry_of_sort_key fmt : sort_key (entry_of fmt) = Some (default 0 (fmt_height fmt)).
Proof. apply int_quality_label. Qed.

Lemma sort_key_audio_only : sort_key audio_only = None.
Proof. vm_compute. reflexivity. Qed.

Lemma entry_of_not_audio fmt : quality (entry_of fmt) ≠ quality audio_only.
Proof.
  intros H. pose proof (entry_of_sort_key fmt) as Hk.
  pose proof sort_key_audio_only as Ha. unfold sort_key in *. congruence.
Qed.

Lemma StronglySorted_impl_elem_of {A} (R R' : relation A) (l : list A) :
  (∀ x y, x ∈ l → y ∈ l → R x y → R' x y) →
  StronglySorted R l → StronglySorted R' l.
Proof.
  intros HR Hs. induction Hs as [|x l _ IH Hall]; [constructor|].
  constructor.
  - apply IH. intros y z ??. apply HR; set_solver.
  - rewrite Forall_forall in Hall |- *. intros y Hy.
    apply HR; [set_solver..|by apply Hall].
Qed.

Lemma StronglySorted_NoDup_fmap {A B} (f : A → B) (R : relation A) (l : list A) :
  NoDup (f <$> l) → StronglySorted R l →
  StronglySorted (λ x y, R x y ∧ f x ≠ f y) l.
Proof.
  intros Hnd Hs. induction Hs as [|x l _ IH Hall]; [constructor|].
  rewrite fmap_cons in Hnd. apply NoDup_cons in Hnd as [Hx Hnd].
  constructor; [by apply IH|].
  rewrite Forall_forall in Hall |- *. intros y Hy. split; [by apply Hall|].
  intros Heq. apply Hx. rewrite Heq. by apply list_elem_of_fmap_2.
Qed.

(** The list after the sort: a permutation of the collected entries, in
    strictly descending height. *)
Lemma build_formats_sorted info :
  ∃ sorted,
    build_formats info = inl (take 10 (sorted ++ [audio_only])) ∧
    sorted ≡ₚ (collect_formats info).1 ∧
    StronglySorted taller sorted.
Proof.
  unfold build_formats. rewrite collect_formats_raw.
  destruct (collect_invariant (raw_formats info)) as (_ & Hnd & Hfirst & _).
  set (formats := (foldl loop_body ([], ∅) (raw_formats info)).1) in *.
  destruct (sort_reverse_is_Some sort_key formats) as [sorted Hsort].
  { apply Forall_forall. intros e He. destruct (Hfirst e He) as (fmt & _ & ->).
    by rewrite entry_of_sort_key. }
  rewrite Hsort. apply sort_reverse_spec in Hsort as (Hperm & Hs & _).
  exists sorted. split_and!; [done..|].
  rewrite <-Hperm in Hnd.
  apply (StronglySorted_NoDup_fmap quality) in Hs; [|done].
  eapply StronglySorted_impl_elem_of; [|exact Hs].
  intros x y Hx Hy [(a & b & Ha & Hb & Hab) Hne]. simpl in *.
  rewrite Hperm in Hx, Hy.
  destruct (Hfirst x Hx) as (fx & _ & ->), (Hfirst y Hy) as (fy & _ & ->).
  rewrite entry_of_sort_key in Ha, Hb. simplify_eq.
  exists (default 0 (fmt_height fx)), (default 0 (fmt_height fy)).
  split_and!; [done..|].
  assert (default 0 (fmt_height fy) ≠ default 0 (fmt_height fx)); [|lia].
  intros Heq. apply Hne. simpl. unfold label. by rewrite Heq.
Qed.

(** ** The catalog *)

Lemma filter_all {A} (P : A → Prop) `{!∀ x, Decision (P x)} (l : list A) :
  Forall P l → filter P l = l.
Proof.
  induction 1 as [|x l Hx _ IH]; [done|].
  by rewrite filter_cons, decide_True, IH.
Qed.




(** The two shapes of the returned list: with fewer than 10 collected
    entries the audio entry closes it, with 10 or more the slice keeps the
    10 tallest and nothing else. *)
Lemma build_formats_cases info :
  ∃ sorted,
    sorted ≡ₚ (collect_formats info).1 ∧ StronglySorted taller sorted ∧
    Forall (λ x, quality x ≠ quality audio_only) sorted ∧
    ((length sorted < 10)%nat ∧ build_formats info = inl (sorted ++ [audio_only]) ∨
     (10 ≤ length sorted)%nat ∧ build_formats info = inl (take 10 sorted)).
Proof.
  destruct (build_formats_sorted info) as (sorted & Hb & Hperm & Hs).
  exists sorted. split_and!; [done..| |].
  - apply Forall_forall. intros x Hx. rewrite Hperm, collect_formats_raw in Hx.
    destruct (collect_invariant (raw_formats info)) as (_ & _ & Hfirst & _).
    destruct (Hfirst x Hx) as (fmt & _ & ->). apply entry_of_not_audio.
  - rewrite Hb. destruct (decide (10 ≤ length sorted)%nat) as [Hlen|Hlen].
    + right. by rewrite take_app_le.
    + left. split; [lia|]. by rewrite take_ge by (rewrite length_app; simpl; lia).
Qed.







(** ** The loop on the store *)





(** C1 at ten distinct heights: the slice [formats[:10]] is taken after the
    audio entry was appended, so the ten video entries fill the list and
    the audio entry is cut off. *)
Theorem catalog_ten_heights_drops_audio :
  ∃ cat,
    build_formats ten_heights = inl cat ∧
    quality <$> cat =
      ["4320p"; "2160p"; "1440p"; "1080p"; "720p"; "480p"; "360p"; "240p";
       "144p"; "96p"] ∧
    last cat = Some (entry_of (raw_video "597" 96)) ∧
    filter (λ x, quality x = quality audio_only) cat = [].
Proof. eexists. split_and!; vm_compute; reflexivity. Qed.

(** ** The format selector *)

(** C3, as amended: ["bestaudio"] selects the best audio stream with an
    MP3 extraction at 192; every other string, the empty one included, is
    passed on as the format, unchanged and without postprocessor; a form
    without the field asks for the format ["best"]. *)
Theorem download_opts_selector :
  (∀ d, opt_format (download_opts "bestaudio" d) = Some "bestaudio/best" ∧
        opt_postprocessors (download_opts "bestaudio" d) =
          [FFmpegExtractAudio "mp3" "192"]) ∧
  (∀ id d, id ≠ "bestaudio" →
        opt_format (download_opts id d) = Some id ∧
        opt_postprocessors (download_opts id d) = []) ∧
  (∀ f : form, f !! "format_id" = None → requested_format f = "best") ∧
  (∀ (f : form) id, f !! "format_id" = Some id → requested_format f = id).
Proof.
  split_and!.
  - done.
  - intros id d Hid. unfold download_opts. by rewrite bool_decide_eq_false_2.
  - intros f Hf. unfold requested_format. by rewrite Hf.
  - intros f id Hf. unfold requested_format. by rewrite Hf.
Qed.

Lemma download_opts_selector_witness :
  (opt_format (download_opts "137" "/tmp/tmp") = Some "137" ∧
   opt_postprocessors (download_opts "137" "/tmp/tmp") = []) ∧
  requested_format scenario_A_form = "best" ∧
  requested_format (<["format_id" := "137"]> scenario_A_form) = "137".
Proof.
  destruct download_opts_selector as (_ & Hother & Habsent & Hgiven).
  split; [|split].
  - apply Hother. discriminate.
  - apply Habsent. vm_compute. reflexivity.
  - apply Hgiven. vm_compute. reflexivity.
Defined.

(** C3 as stated fails: an empty choice is not replaced by the default. *)
Lemma requested_format_empty_not_best :
  requested_format (<["format_id" := ""]> scenario_A_form) = "" ∧
  opt_format (download_opts (requested_format (<["format_id" := ""]> scenario_A_form))
                            "/tmp/tmp") = Some "" ∧
  opt_format (download_opts (requested_format (<["format_id" := ""]> scenario_A_form))
                            "/tmp/tmp") ≠ Some "best".
Proof. split_and!; [vm_compute; reflexivity..|]. vm_compute. discriminate. Qed.

(** ** The handlers *)

Lemma is_valid_not_empty url : is_valid_youtube_url url = true → url ≠ "".
Proof. by intros H ->. Qed.

Lemma download_video_try_valid E f w :
  let url := strip (default "" (f !! "url")) in
  let d := fresh_string "/tmp/tmp" (fs w) in
  let o := download_opts (requested_format f) d in
  let w1 := mkWorld (<[d:=[]]> (fs w))
              ((calls w ++ [NewYoutubeDL o]) ++ [ExtractInfo o url false])
              (flashes w) (logged w) in
  is_valid_youtube_url url = true →
  download_video_try E f w =
  match engine_extract_info E o url with
  | inl info =>
      let '(r, files) := engine_download E o [url] (<[d:=[]]> (fs w)) in
      let w2 := mkWorld files (calls w1 ++ [Download o [url]]) (flashes w) (logged w) in
      match r with
      | inl _ =>
          match files !! d with
          | Some [] =>
              (inl (Redirect index_url),
               mkWorld files (calls w2)
                 (flashes w ++ [("Download failed. No file was created.", "error")])
                 (logged w))
          | Some (first :: _) => (inl (SendFile (path_join d first) first), w2)
          | None => (inr (Exception "FileNotFoundError"), w2)
          end
      | inr e => (inr e, w2)
      end
  | inr e => (inr e, w1)
  end.
Proof.
  intros url d o w1 Hvalid.
  unfold download_video_try. fold url.
  rewrite Hvalid, bool_decide_eq_false_2 by by apply is_valid_not_empty.
  cbn [orb negb]. unfold bind, mkdtemp, YoutubeDL, ydl_extract_info, ydl_download,
    record_call, lift, listdir, flash, ret, bind. cbn [fs calls flashes logged].
  fold d. fold o.
  destruct (engine_extract_info E o url) as [info|e]; [|done].
  destruct (engine_download E o [url] (<[d:=[]]> (fs w))) as [[[]|e] files]; [|done].
  cbn [fs calls flashes logged].
  destruct (files !! d) as [[|first others]|]; done.
Qed.

(** C7, as amended: a URL field whose text, stripped of surrounding
    whitespace as both handlers strip it, fails the validation is answered
    at once, by the 400 response of [get_video_info] and by the flashed
    redirect of [download_video]; the list of engine calls and the file
    system are as before. *)
Theorem invalid_url_no_engine_call (E : Engine) (f : form) (w : World) :
  let url := strip (default "" (f !! "url")) in
  is_valid_youtube_url url = false →
  get_video_info E f w =
    (Json (ErrorBody (if bool_decide (url = "") then "Please enter a YouTube URL"
                      else "Please enter a valid YouTube URL")) 400, w) ∧
  download_video E f w =
    (Redirect index_url,
     mkWorld (fs w) (calls w) (flashes w ++ [("Invalid YouTube URL", "error")])
             (logged w)) ∧
  calls (get_video_info E f w).2 = calls w ∧
  calls (download_video E f w).2 = calls w.
Proof.
  intros url Hinvalid.
  assert (get_video_info E f w =
    (Json (ErrorBody (if bool_decide (url = "") then "Please enter a YouTube URL"
                      else "Please enter a valid YouTube URL")) 400, w)) as Hinfo.
  { unfold get_video_info, get_video_info_try. fold url. rewrite Hinvalid.
    by case_bool_decide. }
  assert (download_video E f w =
    (Redirect index_url,
     mkWorld (fs w) (calls w) (flashes w ++ [("Invalid YouTube URL", "error")])
             (logged w))) as Hdl.
  { unfold download_video, download_video_try. fold url. rewrite Hinvalid.
    by rewrite orb_true_r. }
  by rewrite Hinfo, Hdl.
Qed.

Lemma invalid_url_no_engine_call_witness :
  get_video_info engine_writing scenario_C_form empty_world =
    (Json (ErrorBody "Please enter a valid YouTube URL") 400, empty_world) ∧
  calls (download_video engine_writing scenario_C_form empty_world).2 = [].
Proof.
  destruct (invalid_url_no_engine_call engine_writing scenario_C_form empty_world)
    as (Hinfo & _ & _ & Hcalls); [vm_compute; reflexivity|].
  split; [exact Hinfo|exact Hcalls].
Defined.

(** C7 as stated fails: a URL with a space in front fails the validation,
    but both handlers strip it first and then go to the engine. *)
Lemma padded_url_reaches_engine :
  is_valid_youtube_url " https://www.youtube.com/watch?v=dQw4w9WgXcQ" = false ∧
  calls (get_video_info engine_writing padded_form empty_world).2 =
    [NewYoutubeDL info_opts;
     ExtractInfo info_opts "https://www.youtube.com/watch?v=dQw4w9WgXcQ" false] ∧
  (get_video_info engine_writing padded_form empty_world).1 =
    Json (VideoInfoBody
      {| title := Some "Never Gonna Give You Up"; duration := Some 212;
         thumbnail := Some ""; uploader := None; view_count := Some 0;
         formats := [audio_only] |}) 200 ∧
  calls (download_video engine_writing padded_form empty_world).2 =
    [NewYoutubeDL (download_opts "best" "/tmp/tmp");
     ExtractInfo (download_opts "best" "/tmp/tmp")
       "https://www.youtube.com/watch?v=dQw4w9WgXcQ" false;
     Download (download_opts "best" "/tmp/tmp")
       ["https://www.youtube.com/watch?v=dQw4w9WgXcQ"]] ∧
  (download_video engine_writing padded_form empty_world).1 =
    SendFile "/tmp/tmp/Never Gonna Give You Up.mp4" "Never Gonna Give You Up.mp4".
Proof. split_and!; vm_compute; reflexivity. Qed.

(** C8: after a download that returned, an empty listing of the workspace
    gives the redirect with the message "No file was created", another
    message than the one of a [DownloadError]; otherwise the first name of
    the listing is sent, under that same name. *)
Theorem download_video_artifact (E : Engine) (f : form) (w : World)
    (info : Info) (files : filesystem) :
  let url := strip (default "" (f !! "url")) in
  let d := fresh_string "/tmp/tmp" (fs w) in
  let o := download_opts (requested_format f) d in
  is_valid_youtube_url url = true →
  engine_extract_info E o url = inl info →
  (engine_download E o [url] (<[d:=[]]> (fs w)) = (inl (), files) →
     (files !! d = Some [] →
        (download_video E f w).1 = Redirect index_url ∧
        flashes (download_video E f w).2 =
          flashes w ++ [("Download failed. No file was created.", "error")]) ∧
     (∀ first others, files !! d = Some (first :: others) →
        (download_video E f w).1 = SendFile (path_join d first) first ∧
        flashes (download_video E f w).2 = flashes w)) ∧
  (∀ msg, engine_download E o [url] (<[d:=[]]> (fs w)) = (inr (DownloadError msg), files) →
     (download_video E f w).1 = Redirect index_url ∧
     flashes (download_video E f w).2 =
       flashes w ++
       [("Download failed. Please try again with a different quality option.", "error")]).
Proof.
  intros url d o Hvalid Hinfo. unfold download_video.
  rewrite download_video_try_valid by done. fold url d o. rewrite Hinfo.
  split.
  - intros ->. split.
    + by intros ->.
    + by intros first others ->.
  - by intros msg ->.
Qed.

Lemma download_video_artifact_witness :
  (download_video engine_writing scenario_A_form empty_world).1 =
    SendFile "/tmp/tmp/Never Gonna Give You Up.mp4" "Never Gonna Give You Up.mp4" ∧
  flashes (download_video engine_writing scenario_A_form empty_world).2 = [].
Proof.
  destruct (download_video_artifact engine_writing scenario_A_form empty_world
              no_info {[ "/tmp/tmp" := ["Never Gonna Give You Up.mp4"] ]})
    as [Hreturned _]; [vm_compute; reflexivity|reflexivity|].
  destruct Hreturned as [_ Hfirst]; [vm_compute; reflexivity|].
  apply (Hfirst "Never Gonna Give You Up.mp4" []). vm_compute. reflexivity.
Defined.

(** C2, as amended: the handler never removes the directory it created.
    The name is new; the file system after the call is the one [mkdtemp]
    left or the one the engine's download left; so unless the engine
    removes the directory, it is still there when the call returns, on
    every exit path. *)
Theorem download_video_workspace_remains (E : Engine) (f : form) (w : World) :
  let url := strip (default "" (f !! "url")) in
  let d := fresh_string "/tmp/tmp" (fs w) in
  let o := download_opts (requested_format f) d in
  is_valid_youtube_url url = true →
  fs w !! d = None ∧
  (fs (download_video E f w).2 = <[d:=[]]> (fs w) ∨
   fs (download_video E f w).2 = (engine_download E o [url] (<[d:=[]]> (fs w))).2) ∧
  ((∀ files, is_Some (files !! d) →
      is_Some ((engine_download E o [url] files).2 !! d)) →
   is_Some (fs (download_video E f w).2 !! d)).
Proof.
  intros url d o Hvalid.
  assert (fs (download_video E f w).2 = <[d:=[]]> (fs w) ∨
          fs (download_video E f w).2 =
            (engine_download E o [url] (<[d:=[]]> (fs w))).2) as Hfs.
  { unfold download_video. rewrite download_video_try_valid by done. fold url d o.
    destruct (engine_extract_info E o url) as [info|[msg|msg]]; [|by left..].
    right. destruct (engine_download E o [url] (<[d:=[]]> (fs w)))
      as [[[]|[msg|msg]] files]; [|done..].
    by destruct (files !! d) as [[|first others]|]. }
  split_and!; [apply fresh_string_fresh|done|].
  intros Hkeeps. destruct Hfs as [-> | ->].
  - rewrite lookup_insert_eq. by eexists.
  - apply Hkeeps. rewrite lookup_insert_eq. by eexists.
Qed.

Lemma download_video_workspace_remains_witness :
  is_Some (fs (download_video engine_raising scenario_A_form empty_world).2
             !! fresh_string "/tmp/tmp" (fs empty_world)).
Proof.
  destruct (download_video_workspace_remains engine_raising scenario_A_form
              empty_world) as (_ & _ & Hremains); [vm_compute; reflexivity|].
  apply Hremains. intros files Hfiles. exact Hfiles.
Defined.

(** C2 as stated fails: whether the download raises, returns without a
    file or writes one, the directory made for the request is in the file
    system after the call. *)
Lemma download_video_workspace_not_removed :
  fs empty_world !! "/tmp/tmp" = None ∧
  fs (download_video engine_raising scenario_A_form empty_world).2 !! "/tmp/tmp"
    = Some [] ∧
  fs (download_video engine_silent scenario_A_form empty_world).2 !! "/tmp/tmp"
    = Some [] ∧
  fs (download_video engine_writing scenario_A_form empty_world).2 !! "/tmp/tmp"
    = Some ["Never Gonna Give You Up.mp4"].
Proof. split_and!; vm_compute; reflexivity. Qed.

(** * Further properties *)

(** ** The token the extractor returns *)

Lemma match_plus_ext cs s k k' :
  (∀ p rest, k p rest = k' p rest) → match_plus cs s k = match_plus cs s k'.
Proof.
  revert k k'. induction s as [|c s IH]; intros k k' Hk; simpl; [done|].
  destruct (cs_match cs c); [|done].
  rewrite (IH _ (λ p rest, k' (String c p) rest)) by (intros; apply Hk).
  by rewrite Hk.
Qed.

Lemma run_ext r s g k k' :
  (∀ p rest g', k p rest g' = k' p rest g') → run r s g k = run r s g k'.
Proof.
  revert s g k k'. induction r as [|cs|r1 IH1 r2 IH2|r1 IH1 r2 IH2|cs|i r IH];
    intros s g k k' Hk; simpl.
  - apply Hk.
  - destruct s as [|c s]; [done|]. by rewrite Hk.
  - apply IH1. intros p1 s1 g1. apply IH2. intros p2 s2 g2. apply Hk.
  - by rewrite (IH1 _ _ k k'), (IH2 _ _ k k').
  - apply match_plus_ext. intros. apply Hk.
  - apply IH. intros. apply Hk.
Qed.

Lemma run_equiv_shift a r r' t :
  run_equiv r (Seq r' t) → run_equiv (Seq a r) (Seq (Seq a r') t).
Proof.
  intros Hr s g k. simpl. apply run_ext. intros p1 s1 g1.
  rewrite Hr. simpl. apply run_ext. intros p2 s2 g2.
  apply run_ext. intros p3 s3 g3. by rewrite string_app_assoc.
Qed.

Lemma url_head_origin : run_equiv url_head (Seq url_origin (opt (Group 5 url_path))).
Proof.
  unfold url_head, url_origin. do 5 apply run_equiv_shift. by intros s g k.
Qed.

Lemma run_rep n cs tok rest g k :
  String.length tok = n → Forall (λ c, cs_match cs c = true) (chars tok) →
  run (rep n cs) (tok +:+ rest) g k = k tok rest g.
Proof.
  revert n k. induction tok as [|c tok IH]; intros n k <- HF; [done|].
  inversion HF as [|?? Hc HF']; subst. rewrite string_app_cons. simpl.
  rewrite Hc. by rewrite IH.
Qed.

(** On a literal origin the first parse is the one that reads it whole. *)
Lemma run_url_origin (P : Match → Prop) origin X k :
  origin_shape origin →
  (∀ g, ∃ m, k origin X g = Some m ∧ P m) →
  ∃ m, run url_origin (origin +:+ X) ∅ k = Some m ∧ P m.
Proof.
  intros (scheme & www & host & tld & -> & H1 & H2 & H3 & H4) Hk.
  apply list_elem_of_In in H1, H2, H3, H4. simpl in H1, H2, H3, H4.
  destruct_or!; subst; try done;
    vm_compute in Hk; vm_compute;
    match type of Hk with
    | ∀ g, ∃ m, k ?h X g = _ ∧ _ =>
        match goal with
        | |- context [k h X ?g] => destruct (Hk g) as (m & Hm & HP)
        end
    end;
    rewrite Hm; eexists; (split; [reflexivity|eassumption]).
Qed.

Lemma run_url_path_explicit (P : Match → Prop) path X g k :
  path ∈ ["watch?v="; "embed/"; "v/"] →
  (∀ g', ∃ m, k path X g' = Some m ∧ P m) →
  ∃ m, run (opt (Group 5 url_path)) (path +:+ X) g k = Some m ∧ P m.
Proof.
  intros Hpath Hk. apply list_elem_of_In in Hpath. simpl in Hpath.
  destruct_or!; subst; try done;
    vm_compute in Hk; vm_compute;
    match type of Hk with
    | ∀ g', ∃ m, k ?h X g' = _ ∧ _ =>
        match goal with
        | |- context [k h X ?g'] => destruct (Hk g') as (m & Hm & HP)
        end
    end;
    rewrite Hm; eexists; (split; [reflexivity|eassumption]).
Qed.

Lemma token_group tok rest head g :
  token_shape tok →
  ∃ m, run (Group 6 (rep 11 id_chars)) (tok +:+ rest) g
         (λ p2 s2 g2, Some (mkMatch (head +:+ p2) g2)) = Some m ∧
       group m 6 = Some tok.
Proof.
  intros [Hlen HF]. cbn [run]. rewrite run_rep; [|done|].
  - eexists. split; [done|]. apply lookup_insert_eq.
  - eapply Forall_impl; [exact HF|]. intros c Hc. by apply bool_decide_eq_true.
Qed.

Lemma re_match_youtube_first (P : Match → Prop) origin Y :
  origin_shape origin →
  (∀ g, ∃ m,
     run (opt (Group 5 url_path)) Y g
       (λ p2 s2 g2, run (Group 6 (rep 11 id_chars)) s2 g2
          (λ p3 s3 g3, Some (mkMatch ((origin +:+ p2) +:+ p3) g3))) = Some m ∧
     P m) →
  ∃ m, re_match youtube_regex (origin +:+ Y) = Some m ∧ P m.
Proof.
  intros Horigin HY.
  assert (re_match youtube_regex (origin +:+ Y) =
          run url_origin (origin +:+ Y) ∅
            (λ p1 s1 g1, run (opt (Group 5 url_path)) s1 g1
               (λ p2 s2 g2, run (Group 6 (rep 11 id_chars)) s2 g2
                  (λ p3 s3 g3, Some (mkMatch ((p1 +:+ p2) +:+ p3) g3))))) as ->.
  { unfold re_match, youtube_regex. cbn [run]. rewrite url_head_origin. done. }
  by apply run_url_origin.
Qed.

(** X2: after an origin of the accepted shape and one of the three explicit
    paths, the extractor returns the next 11 characters of the token class,
    whatever follows them. *)
Theorem extract_video_id_explicit_path (origin path tok rest : string) :
  origin_shape origin →
  path ∈ ["watch?v="; "embed/"; "v/"] →
  token_shape tok →
  extract_video_id (origin +:+ path +:+ tok +:+ rest) = Some tok.
Proof.
  intros Horigin Hpath Htok. unfold extract_video_id.
  destruct (re_match_youtube_first (λ m, group m 6 = Some tok) origin
              (path +:+ tok +:+ rest) Horigin) as (m & -> & Hm); [|done].
  intros g. apply run_url_path_explicit; [done|].
  intros g'. by apply token_group.
Qed.

Lemma extract_video_id_explicit_path_witness :
  extract_video_id ("http://youtube-nocookie.com/" +:+ "embed/" +:+ "a.b/c d~e:f"
                    +:+ "&autoplay=1") = Some "a.b/c d~e:f".
Proof.
  apply extract_video_id_explicit_path.
  - exists "http://", "", "youtube-nocookie", "com". split_and!; [done|set_solver..].
  - set_solver.
  - unfold token_shape. apply (bool_decide_unpack _). vm_compute. exact I.
Defined.

Lemma string_split_at (tok rest q t : string) (c : ascii) :
  tok +:+ rest = q +:+ String c t → c ∉ chars tok →
  ∃ a, q = tok +:+ a ∧ rest = a +:+ String c t.
Proof.
  revert q. induction tok as [|d tok IH]; intros q Heq Hc.
  - exists q. by rewrite !string_app_nil_l in *.
  - unfold chars in Hc. simpl in Hc. apply not_elem_of_cons in Hc as [Hcd Hc].
    destruct q as [|d' q].
    + rewrite string_app_cons, string_app_nil_l in Heq. by injection Heq as -> _.
    + rewrite !string_app_cons in Heq. injection Heq as -> Heq.
      destruct (IH q Heq Hc) as (a & -> & ->). by exists a.
Qed.

Lemma video_id_shape_chars tok :
  video_id_shape tok →
  token_shape tok ∧ ("?"%char ∉ chars tok) ∧ ("/"%char ∉ chars tok).
Proof.
  intros [Hlen HF]. rewrite Forall_forall in HF. split_and!.
  - split; [done|]. apply Forall_forall. intros c Hc%HF Hin.
    apply list_elem_of_In in Hin. simpl in Hin. destruct_or!; by subst.
  - by intros ?%HF.
  - by intros ?%HF.
Qed.

(** No alternative of the path group can start inside a plain identifier
    that is not followed by [?v=]. *)
Lemma run_url_path_none tok rest g k :
  video_id_shape tok →
  (∀ a b, rest ≠ a +:+ "?v=" +:+ b) →
  run url_path (tok +:+ rest) g k = None.
Proof.
  intros Hid Hrest. destruct (video_id_shape_chars tok Hid) as ([Hlen _] & Hq & Hs).
  destruct (run url_path (tok +:+ rest) g k) as [m|] eqn:Hrun; [exfalso|done].
  apply run_sound in Hrun as (p & rest' & g' & Heq & Hp & _).
  unfold url_path in Hp.
  assert (∀ q, p = q +:+ "?v=" → False) as Hquery.
  { intros q ->. rewrite string_app_assoc in Heq.
    apply (string_split_at _ _ q _ "?") in Heq as (a & _ & ->); [|done].
    by apply (Hrest a rest'). }
  assert (∀ q, String.length q < 11 → p = q +:+ "/" → False)%nat as Hslash.
  { intros q Hlt ->. rewrite string_app_assoc in Heq.
    apply (string_split_at _ _ q _ "/") in Heq as (a & -> & _); [|done].
    rewrite string_length_app in Hlt. lia. }
  apply matches_alt_inv in Hp as [->%matches_lit|Hp]; [by apply (Hquery "watch")|].
  apply matches_alt_inv in Hp as [->%matches_lit|Hp];
    [by apply (Hslash "embed"); [simpl; lia|]|].
  apply matches_alt_inv in Hp as [->%matches_lit|Hp];
    [by apply (Hslash "v"); [simpl; lia|]|].
  apply matches_seq_inv in Hp as (q & t & g2 & -> & _ & ->%matches_lit).
  by apply (Hquery q).
Qed.

(** X3: right after an origin of the accepted shape, a plain identifier (11
    letters, digits, [-] or [_]) is returned as the token, provided the
    text after it does not contain [?v=]. *)
Theorem extract_video_id_bare_path (origin tok rest : string) :
  origin_shape origin →
  video_id_shape tok →
  (∀ a b, rest ≠ a +:+ "?v=" +:+ b) →
  extract_video_id (origin +:+ tok +:+ rest) = Some tok.
Proof.
  intros Horigin Hid Hrest. unfold extract_video_id.
  destruct (re_match_youtube_first (λ m, group m 6 = Some tok) origin
              (tok +:+ rest) Horigin) as (m & -> & Hm); [|done].
  intros g. unfold opt. cbn [run]. rewrite run_url_path_none by done.
  apply (token_group tok rest (origin +:+ "")).
  by apply video_id_shape_chars.
Qed.

Lemma extract_video_id_bare_path_witness :
  extract_video_id ("https://youtu.be/" +:+ "dQw4w9WgXcQ" +:+ "?t=42") = Some "dQw4w9WgXcQ".
Proof.
  apply extract_video_id_bare_path.
  - exists "https://", "", "youtu", "be". split_and!; [done|set_solver..].
  - unfold video_id_shape. apply (bool_decide_unpack _). vm_compute. exact I.
  - intros a b H.
    do 5 (destruct a as [|? a]; [discriminate H|injection H as _ H]).
    destruct a; discriminate H.
Defined.

(** X1: the validator accepts exactly the strings that start with an
    accepted head followed by 11 characters other than [&], [=], [%] and
    [?]. *)
Theorem is_valid_youtube_url_language (url : string) :
  is_valid_youtube_url url = true ↔ url_shape url.
Proof. apply is_valid_youtube_url_shape. Qed.

(** ** More on the list of formats *)

(** X4: the sort key reads back, from a label printed for a height, that
    very height, for every integer; so two labels are equal only for equal
    heights. *)
Theorem sort_key_reads_label (x : Format) (h : Z) :
  quality x = quality_label h →
  sort_key x = Some h ∧ ∀ h', quality x = quality_label h' → h' = h.
Proof.
  intros Hq. split.
  - unfold sort_key. rewrite Hq. apply int_quality_label.
  - intros h' Hq'. rewrite Hq in Hq'. by apply quality_label_inj.
Qed.

Lemma sort_key_reads_label_witness :
  sort_key (entry_of (raw_video "137" (-1080))) = Some (-1080) ∧
  ∀ h', quality (entry_of (raw_video "137" (-1080))) = quality_label h' → h' = -1080.
Proof. apply sort_key_reads_label. reflexivity. Defined.

Lemma foldl_loop_body_filter raw acc :
  foldl loop_body acc (filter (λ fmt, has_video fmt = true) raw) =
  foldl loop_body acc raw.
Proof.
  revert acc. induction raw as [|x raw IH]; intros acc; [done|].
  rewrite filter_cons. destruct (has_video x) eqn:Hx.
  - rewrite decide_True by done. simpl. apply IH.
  - rewrite decide_False by done. simpl. rewrite IH. f_equal.
    unfold loop_body. destruct acc. by rewrite Hx.
Qed.

Lemma build_formats_raw info info' :
  raw_formats info = raw_formats info' → build_formats info = build_formats info'.
Proof.
  intros H. unfold build_formats. by rewrite !collect_formats_raw, H.
Qed.

(** X5: removing from the input every descriptor whose codec is ['none']
    or whose height is missing or 0 gives the same returned list. *)
Theorem build_formats_ignores_non_video (info : Info) :
  build_formats
    (info_of (filter (λ fmt, fmt_vcodec fmt ≠ Some "none" ∧
                             fmt_height fmt ≠ None ∧ fmt_height fmt ≠ Some 0)
                     (raw_formats info))) =
  build_formats info.
Proof.
  unfold build_formats. rewrite !collect_formats_raw.
  change (raw_formats (info_of ?l)) with l.
  rewrite <-(foldl_loop_body_filter (raw_formats info)).
  assert (filter (λ fmt, fmt_vcodec fmt ≠ Some "none" ∧
                         fmt_height fmt ≠ None ∧ fmt_height fmt ≠ Some 0)
                 (raw_formats info) =
          filter (λ fmt, has_video fmt = true) (raw_formats info)) as ->; [|done].
  apply list_filter_iff. intros fmt. unfold has_video.
  rewrite andb_true_iff, bool_decide_eq_true.
  destruct (fmt_height fmt) as [h|].
  - rewrite bool_decide_eq_true. split.
    + intros (? & _ & Hh). split; [done|]. by intros ->.
    + intros [? Hh]. split_and!; [done..|]. by intros [= ->].
  - split; [by intros (_ & ? & _)|by intros [_ ?]].
Qed.

(** X6: a descriptor that comes after another one with a video and the
    same height can be deleted from the input without changing the
    returned list. *)
Theorem build_formats_drops_later_duplicate (raw1 raw2 : list RawFormat)
    (g fmt : RawFormat) :
  g ∈ raw1 → has_video g = true → has_video fmt = true →
  fmt_height g = fmt_height fmt →
  build_formats (info_of (raw1 ++ fmt :: raw2)) = build_formats (info_of (raw1 ++ raw2)).
Proof.
  intros Hg Hvg Hvf Hh. unfold build_formats. rewrite !collect_formats_raw.
  change (raw_formats (info_of ?l)) with l.
  rewrite !foldl_app. simpl.
  destruct (collect_invariant raw1) as (I1 & _ & _ & I4). simpl in I1, I4.
  destruct (foldl loop_body ([], ∅) raw1) as [formats seen] eqn:Hst.
  simpl in *. rewrite Hvf. fold (label fmt).
  rewrite decide_True; [done|].
  apply I1. rewrite <-(proj2 (label_eq g fmt Hvg Hvf) Hh). by apply I4.
Qed.

Lemma build_formats_drops_later_duplicate_witness :
  build_formats (info_of ([raw_video "22" 720; raw_video "18" 480]
                          ++ raw_video "136" 720 :: [raw_video "160" 144])) =
  build_formats (info_of ([raw_video "22" 720; raw_video "18" 480]
                          ++ [raw_video "160" 144])).
Proof.
  apply (build_formats_drops_later_duplicate _ _ (raw_video "22" 720)).
  - left.
  - reflexivity.
  - reflexivity.
  - reflexivity.
Defined.

(** X7: the returned list never has more than 10 entries; when it holds
    fewer than 10 video entries the audio entry follows them as the last
    element, and when it holds 10 there is nothing else in it. *)
Theorem build_formats_at_most_ten (info : Info) :
  ∃ cat,
    build_formats info = inl cat ∧
    (length cat ≤ 10)%nat ∧
    ((length (video_entries cat) < 10)%nat →
       cat = video_entries cat ++ [audio_only]) ∧
    ((10 ≤ length (video_entries cat))%nat → cat = video_entries cat).
Proof.
  destruct (build_formats_cases info)
    as (sorted & _ & _ & HF & [[Hlen ->]|[Hlen ->]]); eexists; (split; [done|]).
  - assert (video_entries (sorted ++ [audio_only]) = sorted) as ->.
    { unfold video_entries. rewrite filter_app, filter_all by done.
      rewrite filter_cons, decide_False by (by intros []).
      by rewrite filter_nil, app_nil_r. }
    split_and!; [rewrite length_app; simpl; lia|done|lia].
  - assert (video_entries (take 10 sorted) = take 10 sorted) as ->.
    { apply filter_all. by apply Forall_take. }
    rewrite length_take. split_and!; [lia|lia|done].
Qed.

Lemma build_formats_at_most_ten_witness :
  ∃ cat,
    build_formats scenario_B = inl cat ∧
    cat = video_entries cat ++ [audio_only].
Proof.
  destruct (build_formats_at_most_ten scenario_B) as (cat & Hb & _ & Hfew & _).
  exists cat. split; [done|]. apply Hfew.
  pose proof Hb as Hb'. vm_compute in Hb'. injection Hb' as <-.
  vm_compute. lia.
Defined.

Lemma collected_labels raw q :
  q ∈ quality <$> (foldl loop_body ([], ∅) raw).1 ↔
  ∃ fmt, fmt ∈ raw ∧ has_video fmt = true ∧ label fmt = q.
Proof.
  destruct (collect_invariant raw) as (_ & _ & I3 & I4). simpl in I3, I4. split.
  - intros (e & -> & He)%list_elem_of_fmap.
    destruct (I3 e He) as (fmt & (pre & post & -> & Hv & _) & ->).
    exists fmt. split_and!; [|done..]. apply elem_of_app. right. left.
  - intros (fmt & Hin & Hv & <-). by apply I4.
Qed.

Lemma sorted_labels_unique (l l' : list Format) :
  StronglySorted taller l → StronglySorted taller l' →
  quality <$> l ≡ₚ quality <$> l' → quality <$> l = quality <$> l'.
Proof.
  intros Hl Hl' Hperm.
  pose (R := λ q1 q2 : string,
          ∃ a b, q1 = quality_label a ∧ q2 = quality_label b ∧ b < a).
  apply (StronglySorted_unique_strong R); [| | |done].
  - intros q1 q2 _ _ (a & b & -> & -> & Hab) (a' & b' & Ha' & Hb' & Hab').
    apply quality_label_inj in Ha', Hb'. lia.
  - by apply (StronglySorted_fmap quality taller R).
  - by apply (StronglySorted_fmap quality taller R).
Qed.

(** X8: the labels of the returned list, and their order, do not depend on
    the order in which the engine reports the formats. *)
Theorem build_formats_labels_order_free (info info' : Info) (cat cat' : list Format) :
  raw_formats info ≡ₚ raw_formats info' →
  build_formats info = inl cat → build_formats info' = inl cat' →
  quality <$> cat = quality <$> cat'.
Proof.
  intros Hperm Hb Hb'.
  destruct (build_formats_sorted info) as (sorted & Hs & Hp & Hsorted).
  destruct (build_formats_sorted info') as (sorted' & Hs' & Hp' & Hsorted').
  rewrite Hs in Hb. rewrite Hs' in Hb'. injection Hb as <-. injection Hb' as <-.
  rewrite !fmap_take, !fmap_app. do 2 f_equal.
  apply sorted_labels_unique; [done..|].
  rewrite Hp, Hp', !collect_formats_raw.
  destruct (collect_invariant (raw_formats info)) as (_ & Hnd & _).
  destruct (collect_invariant (raw_formats info')) as (_ & Hnd' & _).
  apply NoDup_Permutation; [done..|].
  intros q. rewrite !collected_labels. by setoid_rewrite Hperm.
Qed.

Lemma build_formats_labels_order_free_witness :
  quality <$> [entry_of (raw_video "22" 720); entry_of (raw_video "18" 480); audio_only] =
  quality <$> [entry_of (raw_video "136" 720); entry_of (raw_video "18" 480); audio_only].
Proof.
  apply (build_formats_labels_order_free scenario_B
           (info_of [raw_video "18" 480; raw_video "136" 720; raw_video "22" 720])).
  - change ([raw_video "22" 720; raw_video "18" 480; raw_video "136" 720] ≡ₚ
            [raw_video "18" 480; raw_video "136" 720; raw_video "22" 720]).
    apply (Permutation_cons_append [_; _]).
  - vm_compute. reflexivity.
  - vm_compute. reflexivity.
Defined.

(** ** More on the handlers *)

Lemma get_video_info_try_valid E f w :
  let url := strip (default "" (f !! "url")) in
  let w1 := mkWorld (fs w)
              ((calls w ++ [NewYoutubeDL info_opts]) ++ [ExtractInfo info_opts url false])
              (flashes w) (logged w) in
  is_valid_youtube_url url = true →
  get_video_info_try E f w =
  match engine_extract_info E info_opts url with
  | inl info =>
      match build_video_info info with
      | inl v => (inl (Json (VideoInfoBody v) 200), w1)
      | inr e => (inr e, w1)
      end
  | inr e => (inr e, w1)
  end.
Proof.
  intros url w1 Hvalid. unfold get_video_info_try. fold url.
  rewrite Hvalid, bool_decide_eq_false_2 by by apply is_valid_not_empty.
  cbn [negb]. fold info_opts.
  unfold bind, YoutubeDL, ydl_extract_info, record_call, lift, ret, bind.
  cbn [fs calls flashes logged].
  destruct (engine_extract_info E info_opts url) as [info|e]; [|done].
  by destruct (build_video_info info).
Qed.

(** X9: a metadata request never changes the file system and never flashes
    a message; it asks the engine for at most one metadata query, with
    [download=False] and the quiet options, and never for a download. *)
Theorem get_video_info_effects (E : Engine) (f : form) (w : World) :
  let url := strip (default "" (f !! "url")) in
  let w' := (get_video_info E f w).2 in
  fs w' = fs w ∧ flashes w' = flashes w ∧
  (calls w' = calls w ∨
   calls w' = calls w ++ [NewYoutubeDL info_opts; ExtractInfo info_opts url false]).
Proof.
  intros url. destruct (is_valid_youtube_url url) eqn:Hvalid.
  - unfold get_video_info. rewrite get_video_info_try_valid by done. fold url.
    split_and!; [..|right];
      (destruct (engine_extract_info E info_opts url) as [info|[e|e]];
       [destruct (build_video_info info) as [v|[e|e]]|..]);
      simpl; by rewrite <-?app_assoc.
  - unfold get_video_info, get_video_info_try. fold url. rewrite Hvalid.
    case_bool_decide; simpl; auto.
Qed.

(** X10: for a valid URL the answer follows the engine: it returned, and
    the answer is 200 with the list of formats and, for each of the five
    keys read with a default, the default if the key is absent, null if it
    is null and its value otherwise, nothing logged; it raised
    [DownloadError], and the answer is 400; it raised anything else, and
    the answer is 500; both failures log one line. *)
Theorem get_video_info_outcome (E : Engine) (f : form) (w : World) :
  let url := strip (default "" (f !! "url")) in
  let r := get_video_info E f w in
  is_valid_youtube_url url = true →
  match engine_extract_info E info_opts url with
  | inl info =>
      ∃ v, r.1 = Json (VideoInfoBody v) 200 ∧
        answers (info_title info) "Unknown Title" (title v) ∧
        answers (info_duration info) 0 (duration v) ∧
        answers (info_thumbnail info) "" (thumbnail v) ∧
        answers (info_uploader info) "Unknown" (uploader v) ∧
        answers (info_view_count info) 0 (view_count v) ∧
        build_formats info = inl (formats v) ∧
        logged r.2 = logged w
  | inr (DownloadError e) =>
      r.1 = Json (ErrorBody
        "Failed to fetch video information. Please check the URL and try again.") 400 ∧
      logged r.2 = logged w ++ ["yt-dlp error: " +:+ e]
  | inr (Exception e) =>
      r.1 = Json (ErrorBody "An unexpected error occurred. Please try again.") 500 ∧
      logged r.2 = logged w ++ ["Unexpected error: " +:+ e]
  end.
Proof.
  intros url r Hvalid. unfold r, get_video_info.
  rewrite get_video_info_try_valid by done. fold url.
  destruct (engine_extract_info E info_opts url) as [info|[e|e]]; [|done..].
  destruct (build_formats_sorted info) as (sorted & Hb & _).
  unfold build_video_info. rewrite Hb. eexists. split; [done|]. simpl.
  split_and!; [..|done|done];
    match goal with |- answers ?x _ _ => by destruct x end.
Qed.

Lemma get_video_info_outcome_witness :
  ∃ v, (get_video_info engine_silent scenario_A_form empty_world).1 =
         Json (VideoInfoBody v) 200 ∧
       title v = Some "Never Gonna Give You Up" ∧
       duration v = Some 212 ∧
       thumbnail v = Some "" ∧
       uploader v = None ∧
       view_count v = Some 0 ∧
       build_formats no_info = inl (formats v) ∧
       logged (get_video_info engine_silent scenario_A_form empty_world).2 = [].
Proof.
  apply (get_video_info_outcome engine_silent scenario_A_form empty_world).
  vm_compute. reflexivity.
Defined.

(** X11: for a valid URL the download handler creates the engine once,
    queries the metadata with [download=False] and asks for the download
    only if that query returned; all three calls carry the same options
    and the stripped URL. *)
Theorem download_video_calls (E : Engine) (f : form) (w : World) :
  let url := strip (default "" (f !! "url")) in
  let d := fresh_string "/tmp/tmp" (fs w) in
  let o := download_opts (requested_format f) d in
  is_valid_youtube_url url = true →
  calls (download_video E f w).2 =
    calls w ++ [NewYoutubeDL o; ExtractInfo o url false] ++
    match engine_extract_info E o url with
    | inl _ => [Download o [url]]
    | inr _ => []
    end.
Proof.
  intros url d o Hvalid. unfold download_video.
  rewrite download_video_try_valid by done. fold url d o.
  destruct (engine_extract_info E o url) as [info|[e|e]];
    [|simpl; by rewrite <-app_assoc, ?app_nil_r..].
  destruct (engine_download E o [url] (<[d:=[]]> (fs w))) as [[[]|[e|e]] files];
    [destruct (files !! d) as [[|first others]|]|..];
    simpl; by rewrite <-!app_assoc.
Qed.

Lemma download_video_calls_witness :
  calls (download_video engine_raising scenario_A_form empty_world).2 =
    [NewYoutubeDL (download_opts "best" "/tmp/tmp");
     ExtractInfo (download_opts "best" "/tmp/tmp")
       "https://www.youtube.com/watch?v=dQw4w9WgXcQ" false;
     Download (download_opts "best" "/tmp/tmp")
       ["https://www.youtube.com/watch?v=dQw4w9WgXcQ"]].
Proof.
  apply (download_video_calls engine_raising scenario_A_form empty_world).
  vm_compute. reflexivity.
Defined.

(** X12: the download handler answers in one of two ways: a file of the
    workspace of this request, named as the listing names it, with nothing
    flashed or logged; or a redirect to the index with exactly one flashed
    message of category [error]. *)
Theorem download_video_file_or_flash (E : Engine) (f : form) (w : World) :
  let d := fresh_string "/tmp/tmp" (fs w) in
  let r := download_video E f w in
  (∃ name, r.1 = SendFile (path_join d name) name ∧
           flashes r.2 = flashes w ∧ logged r.2 = logged w) ∨
  (r.1 = Redirect index_url ∧ ∃ msg, flashes r.2 = flashes w ++ [(msg, "error")]).
Proof.
  intros d r. unfold r.
  destruct (is_valid_youtube_url (strip (default "" (f !! "url")))) eqn:Hvalid.
  - unfold download_video. rewrite download_video_try_valid by done. fold d.
    set (url := strip (default "" (f !! "url"))).
    set (o := download_opts (requested_format f) d).
    destruct (engine_extract_info E o url) as [info|[e|e]];
      [|right; simpl; eauto..].
    destruct (engine_download E o [url] (<[d:=[]]> (fs w))) as [[[]|[e|e]] files];
      [destruct (files !! d) as [[|first others]|]|..]; simpl; eauto.
  - right. unfold download_video, download_video_try. rewrite Hvalid, orb_true_r.
    simpl. eauto.
Qed.

(** ** The URL field *)

Lemma lstrip_blank s : Forall (λ c, isspace c = true) (chars s) → lstrip s = "".
Proof.
  induction s as [|c s IH]; intros HF; [done|].
  inversion HF as [|?? Hc HF']; subst. simpl. rewrite Hc. by apply IH.
Qed.

Lemma lstrip_head s :
  lstrip s = "" ∨ ∃ c t, lstrip s = String c t ∧ isspace c = false.
Proof.
  induction s as [|c s IH]; [by left|]. simpl.
  destruct (isspace c) eqn:Hc; [done|]. right. eauto.
Qed.

Lemma rstrip_head c t :
  isspace c = false → ∃ t', rstrip (String c t) = String c t'.
Proof. intros Hc. simpl. rewrite Hc. destruct (rstrip t); eauto. Qed.

Lemma rstrip_idemp s : rstrip (rstrip s) = rstrip s.
Proof.
  induction s as [|c s IH]; [done|]. simpl.
  destruct (rstrip s) as [|d t] eqn:Hs.
  - destruct (isspace c) eqn:Hc; [done|]. simpl. by rewrite Hc.
  - change (rstrip (String c (String d t))) with
      (match rstrip (String d t) with
       | EmptyString => if isspace c then EmptyString else String c EmptyString
       | t' => String c t'
       end).
    by rewrite IH.
Qed.

Lemma strip_idemp s : strip (strip s) = strip s.
Proof.
  unfold strip. destruct (lstrip_head s) as [->|(c & t & -> & Hc)]; [done|].
  destruct (rstrip_head c t Hc) as [t' Ht]. rewrite Ht.
  rewrite lstrip_plain by done. by rewrite <-Ht, rstrip_idemp.
Qed.

(** X13: a URL field that is missing, empty or made of whitespace only is
    answered like an empty one: 400 with the request to enter a URL by the
    metadata handler, the flashed redirect by the download handler; nothing
    else changes. *)
Theorem blank_url_rejected (E : Engine) (f : form) (w : World) :
  Forall (λ c, isspace c = true) (chars (default "" (f !! "url"))) →
  get_video_info E f w = (Json (ErrorBody "Please enter a YouTube URL") 400, w) ∧
  download_video E f w =
    (Redirect index_url,
     mkWorld (fs w) (calls w) (flashes w ++ [("Invalid YouTube URL", "error")])
             (logged w)).
Proof.
  intros Hblank.
  assert (strip (default "" (f !! "url")) = "") as Hurl.
  { unfold strip. by rewrite lstrip_blank. }
  unfold get_video_info, get_video_info_try, download_video, download_video_try.
  by rewrite Hurl.
Qed.

Lemma blank_url_rejected_witness :
  get_video_info engine_writing (<["url" := "   "]> scenario_A_form) empty_world =
    (Json (ErrorBody "Please enter a YouTube URL") 400, empty_world) ∧
  get_video_info engine_writing ∅ empty_world =
    (Json (ErrorBody "Please enter a YouTube URL") 400, empty_world).
Proof.
  split.
  - apply (blank_url_rejected engine_writing (<["url" := "   "]> scenario_A_form)).
    apply (bool_decide_unpack _). vm_compute. exact I.
  - apply (blank_url_rejected engine_writing ∅).
    apply (bool_decide_unpack _). vm_compute. exact I.
Defined.

(** X14: both handlers see the URL field only through [strip]: whitespace
    around the URL does not change the answer or the effects. *)
Theorem url_field_stripped (E : Engine) (f : form) (u : string) (w : World) :
  f !! "url" = Some u →
  get_video_info E (<["url" := strip u]> f) w = get_video_info E f w ∧
  download_video E (<["url" := strip u]> f) w = download_video E f w.
Proof.
  intros Hu.
  assert (strip (default "" (<["url" := strip u]> f !! "url")) =
          strip (default "" (f !! "url"))) as Hurl.
  { rewrite lookup_insert_eq, Hu. simpl. apply strip_idemp. }
  assert (requested_format (<["url" := strip u]> f) = requested_format f) as Hfmt.
  { unfold requested_format. by rewrite lookup_insert_ne. }
  unfold get_video_info, get_video_info_try, download_video, download_video_try.
  by rewrite Hurl, Hfmt.
Qed.

Lemma url_field_stripped_witness :
  get_video_info engine_silent
    (<["url" := "https://www.youtube.com/watch?v=dQw4w9WgXcQ"]>
       {[ "url" := "  https://www.youtube.com/watch?v=dQw4w9WgXcQ " ]}) empty_world =
  get_video_info engine_silent
    {[ "url" := "  https://www.youtube.com/watch?v=dQw4w9WgXcQ " ]} empty_world.
Proof.
  apply (url_field_stripped engine_silent
           {[ "url" := "  https://www.youtube.com/watch?v=dQw4w9WgXcQ " ]}
           "  https://www.youtube.com/watch?v=dQw4w9WgXcQ ").
  apply lookup_singleton_eq.
Defined.

Lemma download_video_fs E f w :
  let url := strip (default "" (f !! "url")) in
  let d := fresh_string "/tmp/tmp" (fs w) in
  let o := download_opts (requested_format f) d in
  is_valid_youtube_url url = true →
  fs (download_video E f w).2 = <[d:=[]]> (fs w) ∨
  fs (download_video E f w).2 = (engine_download E o [url] (<[d:=[]]> (fs w))).2.
Proof.
  intros url d o Hvalid.
  unfold download_video. rewrite download_video_try_valid by done. fold url d o.
  destruct (engine_extract_info E o url) as [info|[msg|msg]]; [|by left..].
  right. destruct (engine_download E o [url] (<[d:=[]]> (fs w)))
    as [[[]|[msg|msg]] files]; [|done..].
  by destruct (files !! d) as [[|first others]|].
Qed.

(** X15: as the workspace of a request is left in place, the next request
    gets another one: with an engine that removes no directory, the name
    [mkdtemp] picks after a download differs from the name it picked for
    that download. *)
Theorem next_workspace_differs (E : Engine) (f : form) (w : World) :
  is_valid_youtube_url (strip (default "" (f !! "url"))) = true →
  (∀ o urls files d, is_Some (files !! d) →
     is_Some ((engine_download E o urls files).2 !! d)) →
  fresh_string "/tmp/tmp" (fs (download_video E f w).2) ≠
  fresh_string "/tmp/tmp" (fs w).
Proof.
  intros Hvalid Hkeeps Heq.
  pose proof (fresh_string_fresh (fs (download_video E f w).2) "/tmp/tmp") as Hfresh.
  rewrite Heq in Hfresh.
  assert (is_Some (fs (download_video E f w).2 !! fresh_string "/tmp/tmp" (fs w)))
    as [l Hl]; [|congruence].
  destruct (download_video_fs E f w Hvalid) as [-> | ->].
  - rewrite lookup_insert_eq. by eexists.
  - apply Hkeeps. rewrite lookup_insert_eq. by eexists.
Qed.

Lemma next_workspace_differs_witness :
  fresh_string "/tmp/tmp"
    (fs (download_video engine_writing scenario_A_form empty_world).2) ≠
  fresh_string "/tmp/tmp" (fs empty_world).
Proof.
  apply next_workspace_differs.
  - vm_compute. reflexivity.
  - intros o urls files d Hd. unfold engine_writing. simpl.
    destruct (opt_outtmpl o) as [t|]; simpl; [|done].
    destruct (decide (dirname t = d)) as [->|Hne].
    + rewrite lookup_insert_eq. by eexists.
    + by rewrite lookup_insert_ne.
Defined.
